(** * Value iteration for the two-group optimal-lockdown model

    A shallow embedding of the notebook [VI-notebook]: the parameter cell,
    the helper functions of the SIR model ([indir], [empl], [ICU], [phi],
    [betaBSIR]), the transition [dynamics], the welfare [cost], the class
    [Model] with [obj_func], the optimizer wrapper [minimize_wrap], the
    Bellman sweep [T] and the driver [solve_model].

    Numbers.  numpy's doubles are idealised as real numbers: rounding is
    not modelled.  The one place where IEEE arithmetic leaves the reals in
    the notebook, the quotient [x / (1 - D_new)] of [dynamics] (which numpy
    evaluates to an infinity or to NaN when the divisor is zero), is written
    out with the type [xreal].

    Exceptions.  Python exceptions are values of [exn], carried by the
    error monad [result].

    Libraries.  [scipy.optimize.minimize] is a parameter of the development
    (section variable [minimize]); [RegularGridInterpolator] is modelled
    from its documented behaviour. *)

From Stdlib Require Import Reals Lra Psatz List ZArith Bool Lia.
Import ListNotations.

Open Scope R_scope.

(* ================================================================== *)
(** ** Python exceptions and the error monad *)

Inductive exn : Type :=
| ValueError          (* scipy: point out of bounds; numpy: empty reduction,
                         negative number of samples *)
| UnboundLocalError   (* a local name read before assignment *)
| ZeroDivisionError.  (* integer modulo by zero *)

Inductive result (A : Type) : Type :=
| Ok (a : A)
| Raise (e : exn).

Arguments Ok {A} a.
Arguments Raise {A} e.

Definition bind {A B : Type} (m : result A) (k : A -> result B) : result B :=
  match m with
  | Ok a => k a
  | Raise e => Raise e
  end.

Notation "x <- m ;; k" := (bind m (fun x => k))
  (at level 61, m at next level, right associativity).
Notation "' p <- m ;; k" := (bind m (fun x => match x with p => k end))
  (at level 61, p pattern, m at next level, right associativity).

(* ================================================================== *)
(** ** Comparisons of reals as booleans *)

Definition Rleb (x y : R) : bool := if Rle_dec x y then true else false.
Definition Rgeb (x y : R) : bool := if Rge_dec x y then true else false.
Definition Rgtb (x y : R) : bool := if Rgt_dec x y then true else false.
Definition Rltb (x y : R) : bool := if Rlt_dec x y then true else false.
Definition Reqb (x y : R) : bool := if Req_dec_T x y then true else false.

Lemma Rleb_true x y : Rleb x y = true <-> x <= y.
Proof. unfold Rleb; destruct (Rle_dec x y); split; intros; try easy. Qed.

Lemma Rleb_false x y : Rleb x y = false <-> y < x.
Proof.
  unfold Rleb; destruct (Rle_dec x y); split; intros; try easy; lra.
Qed.

Lemma Rgeb_true x y : Rgeb x y = true <-> x >= y.
Proof. unfold Rgeb; destruct (Rge_dec x y); split; intros; try easy. Qed.

Lemma Rgeb_false x y : Rgeb x y = false <-> x < y.
Proof.
  unfold Rgeb; destruct (Rge_dec x y); split; intros; try easy; lra.
Qed.

Lemma Rgtb_true x y : Rgtb x y = true <-> x > y.
Proof. unfold Rgtb; destruct (Rgt_dec x y); split; intros; try easy. Qed.

Lemma Rgtb_false x y : Rgtb x y = false <-> x <= y.
Proof.
  unfold Rgtb; destruct (Rgt_dec x y); split; intros; try easy; lra.
Qed.

Lemma Rltb_true x y : Rltb x y = true <-> x < y.
Proof. unfold Rltb; destruct (Rlt_dec x y); split; intros; try easy. Qed.

Lemma Rltb_false x y : Rltb x y = false <-> y <= x.
Proof.
  unfold Rltb; destruct (Rlt_dec x y); split; intros; try easy; lra.
Qed.

Lemma Reqb_true x y : Reqb x y = true <-> x = y.
Proof. unfold Reqb; destruct (Req_dec_T x y); split; intros; try easy. Qed.

Lemma Reqb_false x y : Reqb x y = false <-> x <> y.
Proof. unfold Reqb; destruct (Req_dec_T x y); split; intros; try easy. Qed.

(* ================================================================== *)
(** ** Length-2 arrays and 2x2 matrices *)

(** A numpy array of shape (2,): one entry per group (young, old). *)
Definition vec2 : Type := (R * R)%type.

(** Broadcasting of a scalar against a length-2 array. *)
Definition bc (x : R) : vec2 := (x, x).

Definition vmap (f : R -> R) (a : vec2) : vec2 := (f (fst a), f (snd a)).
Definition vzip (f : R -> R -> R) (a b : vec2) : vec2 :=
  (f (fst a) (fst b), f (snd a) (snd b)).

Definition vadd : vec2 -> vec2 -> vec2 := vzip Rplus.
Definition vsub : vec2 -> vec2 -> vec2 := vzip Rminus.
Definition vmul : vec2 -> vec2 -> vec2 := vzip Rmult.
Definition vdiv : vec2 -> vec2 -> vec2 := vzip Rdiv.
Definition vneg : vec2 -> vec2 := vmap Ropp.
Definition vexp : vec2 -> vec2 := vmap exp.
Definition vmin : vec2 -> vec2 -> vec2 := vzip Rmin.
Definition vmax : vec2 -> vec2 -> vec2 := vzip Rmax.

(** [np.sum] of a length-2 array. *)
Definition vsum (a : vec2) : R := fst a + snd a.

Declare Scope vec_scope.
Delimit Scope vec_scope with vec.
Infix "+" := vadd : vec_scope.
Infix "-" := vsub : vec_scope.
Infix "*" := vmul : vec_scope.
Infix "/" := vdiv : vec_scope.
Notation "- a" := (vneg a) : vec_scope.

(** A 2x2 array, as its two rows. *)
Definition mat2 : Type := (vec2 * vec2)%type.

(** scalar * matrix *)
Definition mscal (x : R) (m : mat2) : mat2 :=
  (vmul (bc x) (fst m), vmul (bc x) (snd m)).

(** [np.dot(m, a)] for a 2x2 matrix and a length-2 array. *)
Definition mdot (m : mat2) (a : vec2) : vec2 :=
  (vsum (vmul (fst m) a), vsum (vmul (snd m) a)).

(** A state point [[S_y, S_o], [I_y, I_o]]. *)
Definition state : Type := mat2.

(** [np.sum(state, axis = 0)]: the per-group column sums. *)
Definition sum_axis0 (s : state) : vec2 := vadd (fst s) (snd s).

(** [np.sum(state)]: the sum of all four entries. *)
Definition sum_all (s : state) : R := vsum (fst s) + vsum (snd s).

(* ================================================================== *)
(** ** Parameter assignments *)

Definition dt : R := 1.
Definition gamma : R := 1 / 18.
Definition theta : R := 0.75.
Definition L_max : vec2 := (0.7, 1).
Definition M : nat := 2.
Definition p : R := 1.

Definition herd_threshold : R := 0.6.

Definition P : vec2 := (0.818, 0.182).
Definition w : vec2 := (1, 0).
Definition career : vec2 := (20 * 365, 0).

Definition ir : R := 0.00001 / 365.
Definition chi : vec2 := vmul (bc 1) (bc 10).

Definition ICU_max : R := 0.0003.
Definition iota : vec2 := (0.02586, 0.074).

Definition nu : R := 0.667 / 365.
Definition beta_0 : R := 0.2.
Definition rho_0 : R := 0.75.

Definition alpha_I : R := 1.
Definition wfh : R := 0.40.
Definition alpha_L : R := 0.00001.
Definition alpha_E : R := 0.42.
Definition eta : R := 10000.
Definition F : R := 1.

(* ================================================================== *)
(** ** Helper functions of the SIR model *)

Definition indir (L_curr : vec2) : vec2 := (bc alpha_L * L_curr)%vec.

Definition empl (L_e : vec2) : vec2 := (bc alpha_E * w * L_e)%vec.

Definition ICU (I_i : vec2) : R :=
  let ICU_curr := vsum (I_i * iota)%vec in
  Rmax 0 ((ICU_curr - ICU_max) * eta).

Definition phi (I_p : vec2) : vec2 :=
  let I_total := vsum I_p in
  let a : vec2 := (0.000634 * gamma, 0.00845 * gamma) in
  let b : vec2 := (0.00845 * gamma, 0.1127 * gamma) in
  (a + b * bc I_total)%vec.

Definition betaBSIR (I_b : vec2) : mat2 :=
  let beta := beta_0 * exp (- alpha_I * vsum I_b) in
  let rho : mat2 := ((1, rho_0), (rho_0, 1)) in
  mscal beta rho.

Definition output (L_g : vec2) (st : state) : R :=
  let S_g := fst st in
  let I_g := snd st in
  let R_g := (P - (S_g + I_g))%vec in
  if Reqb (vsum I_g) 0 then 0
  else vsum (w * L_g * bc (1 - wfh) * (S_g + I_g + bc p * R_g))%vec.

(* ================================================================== *)
(** ** IEEE quotients *)

(** The value of a double-precision quotient whose divisor may be zero:
    finite, an infinity, or NaN.  [np_div x y] is numpy's [x / y] with
    a non-negative divisor ([y] is [1 - D_new] with [D_new <= 1], so a
    zero divisor is [+0.0]). *)
Inductive xreal : Type :=
| Fin (r : R)
| PInf
| NInf
| NaN.

Definition np_div (x y : R) : xreal :=
  if Reqb y 0 then
    (if Reqb x 0 then NaN else if Rltb 0 x then PInf else NInf)
  else Fin (x / y).

(** [np.minimum(x, c)] and [np.maximum(x, c)] with a finite bound [c];
    both propagate NaN. *)
Definition np_minimum (x : xreal) (c : R) : xreal :=
  match x with
  | Fin r => Fin (Rmin r c)
  | PInf => Fin c
  | NInf => NInf
  | NaN => NaN
  end.

Definition np_maximum (x : xreal) (c : R) : xreal :=
  match x with
  | Fin r => Fin (Rmax r c)
  | PInf => PInf
  | NInf => Fin c
  | NaN => NaN
  end.

Definition xvec2 : Type := (xreal * xreal)%type.

Definition xvdiv (a b : vec2) : xvec2 :=
  (np_div (fst a) (fst b), np_div (snd a) (snd b)).
Definition xvminimum (a : xvec2) (c : R) : xvec2 :=
  (np_minimum (fst a) c, np_minimum (snd a) c).
Definition xvmaximum (a : xvec2) (c : R) : xvec2 :=
  (np_maximum (fst a) c, np_maximum (snd a) c).

(* ================================================================== *)
(** ** SIR dynamics *)

(** The death fraction [D_new] of one step. *)
Definition death_step (L_d : vec2) (st : state) : vec2 :=
  let R_d := (P - sum_axis0 st)%vec in
  let S_d := fst st in
  let I_d := snd st in
  let deathRate := phi I_d in
  let indirDeath := indir L_d in
  let dD := (deathRate * I_d + indirDeath * (S_d + R_d))%vec in
  let D_new := (bc dt * dD)%vec in
  let D_new := vmin D_new (bc 1.0) in
  let D_new := vmax D_new (bc 0) in
  D_new.

Definition dynamics (L_d : vec2) (st : state)
  : xvec2 * xvec2 * xvec2 * vec2 :=
  let R_d := (P - sum_axis0 st)%vec in
  let S_d := fst st in
  let I_d := snd st in

  let beta := betaBSIR I_d in
  let deathRate := phi I_d in
  let indirDeath := indir L_d in
  let recoveryRate := (bc gamma * bc 1 - deathRate)%vec in

  let sum_I := mdot beta ((bc 1 - bc theta * L_d) * I_d)%vec in

  let dI := (sum_I * (bc 1 - bc theta * L_d) * S_d - bc gamma * I_d)%vec in
  let dS := (- dI - bc gamma * I_d - indirDeath * S_d)%vec in
  let dR := (recoveryRate * I_d - indirDeath * R_d)%vec in
  let dD := (deathRate * I_d + indirDeath * (S_d + R_d))%vec in

  let D_new := (bc dt * dD)%vec in
  let D_new := vmin D_new (bc 1.0) in
  let D_new := vmax D_new (bc 0) in

  let S_new := xvdiv (S_d + bc dt * dS)%vec (bc 1 - D_new)%vec in
  let S_new := xvminimum S_new 1.0 in
  let S_new := xvmaximum S_new (1e-4 + 1e-5) in

  let I_new := xvdiv (I_d + bc dt * dI)%vec (bc 1 - D_new)%vec in
  let I_new := xvminimum I_new 0.5 in
  let I_new := xvmaximum I_new (1e-4 + 1e-5) in

  let R_new := xvdiv (R_d + bc dt * dR)%vec (bc 1 - D_new)%vec in
  let R_new := xvminimum R_new 1.0 in
  let R_new := xvmaximum R_new (1e-4 + 1e-5) in

  (S_new, I_new, R_new, D_new).

(* ================================================================== *)
(** ** Social / welfare cost *)

(** [cost]: the assignment to the local [cost] ends with the parenthesis
    that closes [np.sum(]; the next source line, [+ ICU(I_c)], is an
    expression statement of its own (a unary plus applied to the call),
    evaluated and dropped. *)
Definition cost (L_c : vec2) (st : state) : R :=
  let S_c := fst st in
  let I_c := snd st in
  let R_c := (P - (S_c + I_c))%vec in
  if Reqb (vsum I_c) 0 then 0
  else
    let cost :=
      vsum ( w * L_c * bc (1 - wfh) * (S_c + I_c + bc p * R_c)
             + ((chi + w) / bc ir * (bc 1 - vexp (bc (- ir) * career)))
                 * phi I_c * I_c
             + (w / bc ir * (bc 1 - vexp (bc (- ir) * career)))
                 * indir L_c * (bc F + S_c + R_c)
             + empl L_c * (S_c + R_c) )%vec in
    let _ := ICU I_c in
    cost.

(* ================================================================== *)
(** ** Grids and 4-D arrays *)

(** The samples of [np.linspace(start, stop, num)] for [num >= 0]:
    [num] evenly spaced points, both ends included. *)
Definition linspace (start stop : R) (num : nat) : list R :=
  map (fun i => start + INR i * ((stop - start) / INR (num - 1)))
      (seq 0 num).

(** [np.linspace(start, stop, num)] on a Python integer [num]: numpy
    checks the number of samples first and raises [ValueError] when it
    is negative. *)
Definition np_linspace (start stop : R) (num : Z) : result (list R) :=
  if (num <? 0)%Z then Raise ValueError
  else Ok (linspace start stop (Z.to_nat num)).

(** An index tuple [i][j][k][l]: S_young, S_old, I_young, I_old. *)
Definition cell : Type := (nat * nat * nat * nat)%type.

Definition cell_eqb (a b : cell) : bool :=
  let '(i, j, k, l) := a in
  let '(i', j', k', l') := b in
  Nat.eqb i i' && Nat.eqb j j' && Nat.eqb k k' && Nat.eqb l l'.

(** A 4-D array of values and a 4-D array of length-2 policies, as
    total functions of the index tuple: the shapes [(N, N, N, N)] and
    [(N, N, N, N, 2)] are left implicit, with [N] the grid size of the
    model.  An array smaller than the grid, on which indexing raises
    [IndexError], is therefore outside the model. *)
Definition varray : Type := cell -> R.
Definition parray : Type := cell -> vec2.

(** The store [a[i][j][k][l] = x]. *)
Definition upd {A : Type} (a : cell -> A) (c : cell) (x : A) : cell -> A :=
  fun c' => if cell_eqb c c' then x else a c'.

Definition zeros_v : varray := fun _ => 0.
Definition zeros_p : parray := fun _ => bc 0.

(* ================================================================== *)
(** ** The class [Model] *)

Definition transition : Type :=
  vec2 -> state -> xvec2 * xvec2 * xvec2 * vec2.

Record Model : Type := mkModel {
  u : vec2 -> state -> R;      (* utility function *)
  f : transition;              (* production function *)
  gridS : list R;
  gridI : list R
}.

(** The object that [Model.__init__] builds when both calls of
    [np.linspace] return, that is for a grid size [grid_size >= 0]. *)
Definition Model_init (u0 : vec2 -> state -> R) (f0 : transition)
    (grid_size : nat) : Model :=
  {| u := u0; f := f0;
     gridS := linspace 1e-4 1 grid_size;
     gridI := linspace 1e-4 0.5 grid_size |}.

(** The call [Model(u, f, grid_size)] on a Python integer: the body of
    [Model.__init__] has no check of its own, and the two calls of
    [np.linspace] are where it can raise. *)
Definition Model_new (u0 : vec2 -> state -> R) (f0 : transition)
    (grid_size : Z) : result Model :=
  gS <- np_linspace 1e-4 1 grid_size ;;
  gI <- np_linspace 1e-4 0.5 grid_size ;;
  Ok {| u := u0; f := f0; gridS := gS; gridI := gI |}.

(* ================================================================== *)
(** ** Multilinear interpolation *)

(** A query point [np.concatenate((s0, i0))]. *)
Definition query : Type := (xreal * xreal * xreal * xreal)%type.

Definition concatenate (s0 i0 : xvec2) : query :=
  (fst s0, snd s0, fst i0, snd i0).

Definition axis_lo (g : list R) : R := nth 0 g 0.
Definition axis_hi (g : list R) : R := last g 0.

(** The bounds check of one coordinate: a non-finite coordinate fails
    it, as both comparisons are false on NaN. *)
Definition in_axis (g : list R) (x : xreal) : bool :=
  match x with
  | Fin r => Rleb (axis_lo g) r && Rleb r (axis_hi g)
  | _ => false
  end.

Definition in_domain (gs : list R * list R * list R * list R) (q : query)
  : bool :=
  let '(g1, g2, g3, g4) := gs in
  let '(x1, x2, x3, x4) := q in
  in_axis g1 x1 && in_axis g2 x2 && in_axis g3 x3 && in_axis g4 x4.

(** The finite part of a coordinate that passed the bounds check. *)
Definition fin (x : xreal) : R :=
  match x with Fin r => r | _ => 0 end.

(** The lower index of the grid interval that encloses [x]: the number
    of grid points below [x], less one, kept within [0, len - 2]. *)
Definition find_index (g : list R) (x : R) : nat :=
  Nat.min (pred (length (filter (fun y => Rltb y x) g))) (length g - 2).

(** The normalised distance of [x] from the lower end of its interval. *)
Definition norm_distance (g : list R) (x : R) : R :=
  let i := find_index g x in
  (x - nth i g 0) / (nth (S i) g 0 - nth i g 0).

(** The blend weight of a corner: [1 - t] at the lower end, [t] at the
    upper end. *)
Definition blend_weight (t : R) (o : nat) : R :=
  match o with O => 1 - t | _ => t end.

Definition Rsum (l : list R) : R := fold_right Rplus 0 l.

(** The 2^4 = 16 corners of a 4-D grid cell, as offsets. *)
Definition corners : list cell :=
  flat_map (fun a => flat_map (fun b => flat_map (fun c =>
    map (fun d => (a, b, c, d)) [0%nat; 1%nat]) [0%nat; 1%nat])
    [0%nat; 1%nat]) [0%nat; 1%nat].

(** Quadrilinear interpolation: the 16 corner values of the enclosing
    cell, blended with the Cartesian product of the per-axis weights. *)
Definition quadrilinear (gs : list R * list R * list R * list R)
    (values : varray) (x : R * R * R * R) : R :=
  let '(g1, g2, g3, g4) := gs in
  let '(x1, x2, x3, x4) := x in
  let i := find_index g1 x1 in
  let j := find_index g2 x2 in
  let k := find_index g3 x3 in
  let l := find_index g4 x4 in
  Rsum (map (fun o : cell =>
               let '(a, b, c, d) := o in
               blend_weight (norm_distance g1 x1) a
               * blend_weight (norm_distance g2 x2) b
               * blend_weight (norm_distance g3 x3) c
               * blend_weight (norm_distance g4 x4) d
               * values ((i + a)%nat, (j + b)%nat, (k + c)%nat, (l + d)%nat))
            corners).

(** Modelled from the spec: [scipy.interpolate.RegularGridInterpolator]
    with [method = 'linear'] and the default [bounds_error = True], which
    is library code outside the notebook.  A query outside
    [[axis.min, axis.max]] on some axis raises [ValueError]; otherwise the
    result is the quadrilinear blend. *)
Definition RegularGridInterpolator (gs : list R * list R * list R * list R)
    (values : varray) (q : query) : result R :=
  if in_domain gs q then
    let '(x1, x2, x3, x4) := q in
    Ok (quadrilinear gs values (fin x1, fin x2, fin x3, fin x4))
  else Raise ValueError.

(** Multilinear interpolation as it is usually written, for comparison
    with [quadrilinear]: an axis is [increasing] when its points ascend
    strictly; [in_cell g i x] says that [x] lies in the grid interval
    [[g[i], g[i+1]]]; [lerp g i x a] interpolates [a] linearly between
    the grid points [i] and [i + 1]; [multilinear] nests one [lerp] per
    axis inside a given grid cell. *)
Definition increasing (g : list R) : Prop :=
  forall a b, (a < b < length g)%nat -> nth a g 0 < nth b g 0.

Definition in_cell (g : list R) (i : nat) (x : R) : Prop :=
  (S i < length g)%nat /\ nth i g 0 <= x <= nth (S i) g 0.

Definition lerp (g : list R) (i : nat) (x : R) (a : nat -> R) : R :=
  let t := (x - nth i g 0) / (nth (S i) g 0 - nth i g 0) in
  (1 - t) * a i + t * a (S i).

Definition multilinear (gs : list R * list R * list R * list R)
    (values : varray) (c : cell) (x : R * R * R * R) : R :=
  let '(g1, g2, g3, g4) := gs in
  let '(i, j, k, l) := c in
  let '(x1, x2, x3, x4) := x in
  lerp g1 i x1 (fun i' =>
    lerp g2 j x2 (fun j' =>
      lerp g3 k x3 (fun k' =>
        lerp g4 l x4 (fun l' => values (i', j', k', l'))))).

(** [Model.obj_func] *)
Definition obj_func (self : Model) (c : vec2) (y : state) (v_array : varray)
  : result R :=
  let v := RegularGridInterpolator
             (gridS self, gridS self, gridI self, gridI self) v_array in
  let '(s0, i0, r0, d0) := f self c y in
  vq <- v (concatenate s0 i0) ;;
  Ok (u self c y * dt + exp (- (nu + ir) * dt) * vq).

(* ================================================================== *)
(** ** The Bellman sweep and the value-iteration driver *)

(** Box bounds, one (low, high) pair per control component. *)
Definition bounds : Type := ((R * R) * (R * R))%type.

Definition in_box (bds : bounds) (x : vec2) : Prop :=
  fst (fst bds) <= fst x <= snd (fst bds)
  /\ fst (snd bds) <= snd x <= snd (snd bds).

(** The state of one sweep: the two arrays under construction, the index
    tuple [sy, so, iy, io], and (a ghost field, not in the notebook) the
    cells at which the optimizer has been invoked, oldest first. *)
Record sweep : Type := mkSweep {
  v_new : varray;
  v_greedy : parray;
  tracked : cell;
  invoked : list cell
}.

(** Lines printed by [solve_model]. *)
Inductive msg : Type :=
| MsgError (iter : Z) (error : R)    (* "Error at iteration {iter} is {error}." *)
| MsgFailed                          (* "Failed to converge!" *)
| MsgConverged (iter : Z).           (* "Converged in {iter} iterations." *)

(** Printing and raising: the lines printed so far, and the outcome. *)
Definition io (A : Type) : Type := (list msg * result A)%type.

Definition io_ret {A : Type} (a : A) : io A := ([], Ok a).
Definition io_lift {A : Type} (r : result A) : io A := ([], r).
Definition print (m : msg) : io unit := ([m], Ok tt).

Definition io_bind {A B : Type} (m : io A) (k : A -> io B) : io B :=
  match m with
  | (out, Ok a) => let '(out', r) := k a in (out ++ out', r)
  | (out, Raise e) => (out, Raise e)
  end.

Notation "x <~ m ;; k" := (io_bind m (fun x => k))
  (at level 61, m at next level, right associativity).
Notation "m ;;; k" := (io_bind m (fun _ => k))
  (at level 61, right associativity).

(** [np.max] of a flattened array; an empty array has no maximum. *)
Definition np_max (l : list R) : result R :=
  match l with
  | [] => Raise ValueError
  | x :: xs => Ok (fold_left Rmax xs x)
  end.

(** The loop variables of [solve_model]; [last_sweep] is [None] while
    the names [v_greedy], [v_new] are unbound. *)
Record loop : Type := mkLoop {
  cur_v : varray;
  iter : Z;
  error : R;
  last_sweep : option (parray * varray)
}.

Section Solver.

(** [scipy.optimize.minimize(objective, x0, method='L-BFGS-B',
    jac=None, bounds=bds)], reduced to [(result.x, result.fun)]; an
    exception raised by the objective propagates. *)
Variable minimize :
  (vec2 -> result R) -> vec2 -> bounds -> result (vec2 * R).

(** [np.empty_like(v)]: a fresh array of unspecified contents. *)
Variable empty_like : varray -> varray.

Definition minimize_wrap (g : vec2 -> state * varray -> result R)
    (bds : bounds) (args : state * varray) : result (vec2 * R) :=
  let objective := fun x => g x args in
  minimize objective (0, 1) bds.

(** The state point of a cell. *)
Definition bellman_at (og : Model) (c : cell) : state :=
  let '(i, j, k, l) := c in
  ((nth i (gridS og) 0, nth j (gridS og) 0),
   (nth k (gridI og) 0, nth l (gridI og) 0)).

(** The body of the innermost loop of [T]. *)
Definition T_body (v : varray) (og : Model) (bds : bounds)
    (st : sweep) (c : cell) : result sweep :=
  let bellman := bellman_at og c in
  let b2 := sum_axis0 bellman in
  if Rleb (fst b2) (fst P + 0.02) && Rleb (snd b2) (snd P + 0.02) then
    if Rgeb (sum_all bellman) (1 - herd_threshold) then
      '(c_star, v_max) <-
         minimize_wrap (fun x args => obj_func og x (fst args) (snd args))
                       bds (bellman, v) ;;
      Ok {| v_greedy := upd (v_greedy st) c c_star;
            v_new := upd (v_new st) c v_max;
            tracked := c;
            invoked := invoked st ++ [c] |}
    else
      Ok {| v_greedy := upd (v_greedy st) c (bc 0);
            v_new := upd (v_new st) c 0;
            tracked := tracked st;
            invoked := invoked st |}
  else (* exterior, set to same value as boundary *)
    Ok {| v_new := upd (v_new st) c (v_new st (tracked st));
          v_greedy := upd (v_greedy st) c (v_greedy st (tracked st));
          tracked := tracked st;
          invoked := invoked st |}.

(** The index tuples in the order of the four nested loops. *)
Definition traversal (og : Model) : list cell :=
  flat_map (fun i =>
    flat_map (fun j =>
      flat_map (fun k =>
        map (fun l => (i, j, k, l)) (seq 0 (length (gridI og))))
        (seq 0 (length (gridI og))))
      (seq 0 (length (gridS og))))
    (seq 0 (length (gridS og))).

Fixpoint T_loop (v : varray) (og : Model) (bds : bounds)
    (cells : list cell) (st : sweep) : result sweep :=
  match cells with
  | [] => Ok st
  | c :: cells' =>
      st' <- T_body v og bds st c ;;
      T_loop v og bds cells' st'
  end.

Definition T_bds : bounds := ((1e-4, fst L_max), (1e-4, snd L_max)).

Definition T_init (v : varray) : sweep :=
  {| v_new := empty_like v;
     v_greedy := zeros_p;
     tracked := (0, 0, 0, 0)%nat;
     invoked := [] |}.

(** The sweep, with its final state. *)
Definition T_sweep (v : varray) (og : Model) : result sweep :=
  T_loop v og T_bds (traversal og) (T_init v).

(** [T(v, og)] *)
Definition T (v : varray) (og : Model) : result (parray * varray) :=
  st <- T_sweep v og ;;
  Ok (v_greedy st, v_new st).

(** [np.max(np.abs(v - v_new))] over the whole array. *)
Definition sup_norm (og : Model) (v v' : varray) : result R :=
  np_max (map (fun c => Rabs (v c - v' c)) (traversal og)).

(** The [while] loop of [solve_model].  The recursion is on the number
    of iterations left, [max_iter - iter], so that the guard
    [iter < max_iter] reads "some iterations are left". *)
Fixpoint solve_loop (og : Model) (tol : R) (verbose : bool)
    (print_skip : Z) (left : nat) (s : loop) : io loop :=
  match left with
  | O => io_ret s
  | S left' =>
      if Rgtb (error s) tol then
        r <~ io_lift (T (cur_v s) og) ;;
        let '(v_greedy, v_new) := r in
        error <~ io_lift (sup_norm og (cur_v s) v_new) ;;
        (if verbose then
           if (print_skip =? 0)%Z then io_lift (Raise ZeroDivisionError)
           else if (iter s mod print_skip =? 0)%Z
                then print (MsgError (iter s) error)
                else io_ret tt
         else io_ret tt) ;;;
        solve_loop og tol verbose print_skip left'
          {| cur_v := v_new;
             iter := (iter s + 1)%Z;
             error := error;
             last_sweep := Some (v_greedy, v_new) |}
      else io_ret s
  end.

(** [solve_model(og, v0, max_iter, tol, verbose, print_skip)] *)
Definition solve_model (og : Model) (v0 : varray) (max_iter : Z)
    (tol : R) (verbose : bool) (print_skip : Z)
  : io (parray * varray) :=
  let s0 := {| cur_v := v0; iter := 0%Z; error := tol + 1;
               last_sweep := None |} in
  s <~ solve_loop og tol verbose print_skip (Z.to_nat max_iter) s0 ;;
  (if (iter s =? max_iter)%Z then
     print (MsgError (iter s) (error s)) ;;; print MsgFailed
   else io_ret tt) ;;;
  (if verbose && (iter s <? max_iter)%Z then print (MsgConverged (iter s))
   else io_ret tt) ;;;
  match last_sweep s with
  | Some r => io_ret r
  | None => io_lift (Raise UnboundLocalError)
  end.

End Solver.

(* ================================================================== *)
(** ** The three kinds of cell *)

Inductive region : Type :=
| Exterior    (* violates the per-group population bound *)
| PostHerd    (* within the bound, aggregate mass below 1 - herd_threshold *)
| Interior.   (* within the bound, optimised *)

(** The two tests of [T], in the order the sweep makes them. *)
Definition classify (og : Model) (c : cell) : region :=
  let bellman := bellman_at og c in
  let b2 := sum_axis0 bellman in
  if Rleb (fst b2) (fst P + 0.02) && Rleb (snd b2) (snd P + 0.02) then
    if Rgeb (sum_all bellman) (1 - herd_threshold) then Interior
    else PostHerd
  else Exterior.

Definition is_interior (og : Model) (c : cell) : bool :=
  match classify og c with Interior => true | _ => false end.

(** The per-group population bound of a state point. *)
Definition within_bound (s : state) : Prop :=
  fst (sum_axis0 s) <= fst P + 0.02 /\ snd (sum_axis0 s) <= snd P + 0.02.

Ltac rbool :=
  repeat match goal with
  | H : Rleb _ _ = true |- _ => apply Rleb_true in H
  | H : Rleb _ _ = false |- _ => apply Rleb_false in H
  | H : Rgeb _ _ = true |- _ => apply Rgeb_true in H
  | H : Rgeb _ _ = false |- _ => apply Rgeb_false in H
  | H : Rgtb _ _ = true |- _ => apply Rgtb_true in H
  | H : Rgtb _ _ = false |- _ => apply Rgtb_false in H
  | H : Rltb _ _ = true |- _ => unfold Rltb in H
  | H : Reqb _ _ = true |- _ => apply Reqb_true in H
  | H : Reqb _ _ = false |- _ => apply Reqb_false in H
  end.

Ltac classify_cases og c :=
  unfold classify, within_bound;
  destruct (Rleb (fst (sum_axis0 (bellman_at og c))) (fst P + 0.02)) eqn:?;
  destruct (Rleb (snd (sum_axis0 (bellman_at og c))) (snd P + 0.02)) eqn:?;
  destruct (Rgeb (sum_all (bellman_at og c)) (1 - herd_threshold)) eqn:?;
  cbn [andb]; rbool;
  (split; [ intros ?; first [ discriminate | repeat split; lra ]
          | intros ?; first [ reflexivity | exfalso; tauto | exfalso; lra ] ]).

Lemma classify_interior og c :
  classify og c = Interior <->
  within_bound (bellman_at og c)
  /\ sum_all (bellman_at og c) >= 1 - herd_threshold.
Proof. classify_cases og c. Qed.

Lemma classify_postherd og c :
  classify og c = PostHerd <->
  within_bound (bellman_at og c)
  /\ sum_all (bellman_at og c) < 1 - herd_threshold.
Proof. classify_cases og c. Qed.

Lemma classify_exterior og c :
  classify og c = Exterior <-> ~ within_bound (bellman_at og c).
Proof. classify_cases og c. Qed.

(** The index tuple that an exterior cell copies from, after the cells
    [pre] have been visited: the last optimised cell among them, and the
    initial [0,0,0,0] when there is none. *)
Definition tracked_after (og : Model) (pre : list cell) (start : cell)
  : cell :=
  fold_left (fun t c => if is_interior og c then c else t) pre start.

Definition origin : cell := (0, 0, 0, 0)%nat.

(* ================================================================== *)
(** ** Cells and array stores *)

Lemma cell_eqb_eq a b : cell_eqb a b = true <-> a = b.
Proof.
  destruct a as [[[i j] k] l], b as [[[i' j'] k'] l']; simpl.
  rewrite !andb_true_iff, !Nat.eqb_eq. split.
  - intros [[[-> ->] ->] ->]; reflexivity.
  - intros H; inversion H; auto.
Qed.

Lemma cell_eqb_refl a : cell_eqb a a = true.
Proof. apply cell_eqb_eq; reflexivity. Qed.

Lemma cell_eqb_neq a b : a <> b -> cell_eqb a b = false.
Proof.
  intros H; destruct (cell_eqb a b) eqn:E; auto.
  apply cell_eqb_eq in E; contradiction.
Qed.

Lemma cell_eq_dec (a b : cell) : {a = b} + {a <> b}.
Proof. repeat decide equality. Qed.

Lemma upd_same {A} (a : cell -> A) c x : upd a c x c = x.
Proof. unfold upd; now rewrite cell_eqb_refl. Qed.

Lemma upd_other {A} (a : cell -> A) c c' x : c <> c' -> upd a c x c' = a c'.
Proof. intros H; unfold upd; now rewrite cell_eqb_neq. Qed.

(* ================================================================== *)
(** ** What one visit and a run of visits do *)

Section SweepFacts.

Variable minimize :
  (vec2 -> result R) -> vec2 -> bounds -> result (vec2 * R).
Variable v : varray.
Variable og : Model.
Variable bds : bounds.

(** The objective handed to the optimizer at a cell. *)
Definition cell_objective (c : cell) : vec2 -> result R :=
  fun x => obj_func og x (bellman_at og c) v.

Lemma T_body_exterior st c :
  classify og c = Exterior ->
  T_body minimize v og bds st c =
  Ok {| v_new := upd (v_new st) c (v_new st (tracked st));
        v_greedy := upd (v_greedy st) c (v_greedy st (tracked st));
        tracked := tracked st;
        invoked := invoked st |}.
Proof.
  unfold classify, T_body.
  destruct (Rleb _ _ && Rleb _ _); [|reflexivity].
  destruct (Rgeb _ _); discriminate.
Qed.

Lemma T_body_postherd st c :
  classify og c = PostHerd ->
  T_body minimize v og bds st c =
  Ok {| v_greedy := upd (v_greedy st) c (bc 0);
        v_new := upd (v_new st) c 0;
        tracked := tracked st;
        invoked := invoked st |}.
Proof.
  unfold classify, T_body.
  destruct (Rleb _ _ && Rleb _ _); [|discriminate].
  destruct (Rgeb _ _); [discriminate|reflexivity].
Qed.

Lemma T_body_interior st c :
  classify og c = Interior ->
  T_body minimize v og bds st c =
  ('(c_star, v_max) <- minimize (cell_objective c) (0, 1) bds ;;
   Ok {| v_greedy := upd (v_greedy st) c c_star;
         v_new := upd (v_new st) c v_max;
         tracked := c;
         invoked := invoked st ++ [c] |}).
Proof.
  unfold classify, T_body.
  destruct (Rleb _ _ && Rleb _ _); [|discriminate].
  destruct (Rgeb _ _); [reflexivity|discriminate].
Qed.

(** What a visit stores at its own cell. *)
Definition stored (st st' : sweep) (c : cell) : Prop :=
  match classify og c with
  | Exterior =>
      v_new st' c = v_new st (tracked st)
      /\ v_greedy st' c = v_greedy st (tracked st)
  | PostHerd => v_new st' c = 0 /\ v_greedy st' c = bc 0
  | Interior =>
      minimize (cell_objective c) (0, 1) bds
      = Ok (v_greedy st' c, v_new st' c)
  end.

Lemma T_body_inv st c st' :
  T_body minimize v og bds st c = Ok st' ->
  (forall c', c' <> c ->
     v_new st' c' = v_new st c' /\ v_greedy st' c' = v_greedy st c')
  /\ tracked st' = (if is_interior og c then c else tracked st)
  /\ invoked st' = invoked st ++ (if is_interior og c then [c] else [])
  /\ stored st st' c.
Proof.
  unfold stored, is_interior.
  destruct (classify og c) eqn:E; intros H.
  - rewrite (T_body_exterior _ _ E) in H. injection H as <-. simpl.
    rewrite !upd_same, app_nil_r.
    repeat split; auto; apply upd_other; congruence.
  - rewrite (T_body_postherd _ _ E) in H. injection H as <-. simpl.
    rewrite !upd_same, app_nil_r.
    repeat split; auto; apply upd_other; congruence.
  - rewrite (T_body_interior _ _ E) in H.
    destruct (minimize (cell_objective c) (0, 1) bds) as [[c_star v_max]|e];
      simpl in H; [|discriminate].
    injection H as <-. simpl. rewrite !upd_same.
    repeat split; auto; apply upd_other; congruence.
Qed.

Lemma T_loop_app l1 l2 st :
  T_loop minimize v og bds (l1 ++ l2) st =
  (st1 <- T_loop minimize v og bds l1 st ;;
   T_loop minimize v og bds l2 st1).
Proof.
  revert st; induction l1 as [|c l1 IH]; intros st; simpl; [reflexivity|].
  destruct (T_body minimize v og bds st c); simpl; auto.
Qed.

Lemma T_loop_inv cells : forall st st',
  T_loop minimize v og bds cells st = Ok st' ->
  (forall c', ~ In c' cells ->
     v_new st' c' = v_new st c' /\ v_greedy st' c' = v_greedy st c')
  /\ tracked st' = tracked_after og cells (tracked st)
  /\ invoked st' = invoked st ++ filter (is_interior og) cells.
Proof.
  induction cells as [|c cells IH]; intros st st' H; simpl in H.
  - injection H as <-. simpl. rewrite app_nil_r. auto.
  - destruct (T_body minimize v og bds st c) as [st1|e] eqn:E1;
      simpl in H; [|discriminate].
    apply T_body_inv in E1. destruct E1 as (F1 & T1 & I1 & _).
    apply IH in H. destruct H as (F2 & T2 & I2).
    split; [|split].
    + intros c' Hn. simpl in Hn.
      destruct (F2 c') as [a b]; [tauto|].
      destruct (F1 c') as [a' b']; [intros ->; tauto|].
      split; congruence.
    + unfold tracked_after in *. simpl. rewrite T2, T1. reflexivity.
    + rewrite I2, I1. simpl.
      destruct (is_interior og c); simpl;
        now rewrite <- ?app_assoc, ?app_nil_r.
Qed.

(** The visit of one cell inside a run over distinct cells: the run up
    to the cell, the visit, and the rest, which leaves the cell alone. *)
Lemma T_loop_visit pre c post st0 stf :
  NoDup (pre ++ c :: post) ->
  T_loop minimize v og bds (pre ++ c :: post) st0 = Ok stf ->
  exists st1 st2,
    T_loop minimize v og bds pre st0 = Ok st1
    /\ T_body minimize v og bds st1 c = Ok st2
    /\ tracked st1 = tracked_after og pre (tracked st0)
    /\ v_new stf c = v_new st2 c
    /\ v_greedy stf c = v_greedy st2 c
    /\ (forall t, In t pre ->
          v_new stf t = v_new st1 t /\ v_greedy stf t = v_greedy st1 t).
Proof.
  intros ND H. rewrite T_loop_app in H.
  destruct (T_loop minimize v og bds pre st0) as [st1|e] eqn:E1;
    simpl in H; [|discriminate].
  destruct (T_body minimize v og bds st1 c) as [st2|e] eqn:E2;
    simpl in H; [|discriminate].
  exists st1, st2.
  pose proof (T_loop_inv _ _ _ E1) as (_ & T1 & _).
  pose proof (T_loop_inv _ _ _ H) as (F3 & _ & _).
  pose proof (T_body_inv _ _ _ E2) as (F2 & _ & _ & _).
  apply NoDup_remove in ND. destruct ND as [ND Hc].
  assert (Hcp : ~ In c post) by (intros X; apply Hc, in_or_app; auto).
  repeat split; auto; try (apply F3; exact Hcp).
  - assert (Ht : ~ In t post).
    { intros X. clear - ND H0 X.
      induction pre as [|a pre IH]; [destruct H0|].
      simpl in ND. inversion ND as [|? ? Ha ND']; subst.
      destruct H0 as [->|Hin].
      - apply Ha, in_or_app; auto.
      - auto. }
    destruct (F3 t Ht) as [-> _]. apply F2.
    intros ->. apply Hc, in_or_app; auto.
  - assert (Ht : ~ In t post).
    { intros X. clear - ND H0 X.
      induction pre as [|a pre IH]; [destruct H0|].
      simpl in ND. inversion ND as [|? ? Ha ND']; subst.
      destruct H0 as [->|Hin].
      - apply Ha, in_or_app; auto.
      - auto. }
    destruct (F3 t Ht) as [_ ->]. apply F2.
    intros ->. apply Hc, in_or_app; auto.
Qed.

End SweepFacts.

(* ================================================================== *)
(** ** The traversal order *)

Lemma NoDup_flat_map {A B : Type} (g : A -> list B) (l : list A) :
  NoDup l ->
  (forall a, In a l -> NoDup (g a)) ->
  (forall a a' b, In a l -> In a' l -> In b (g a) -> In b (g a') -> a = a') ->
  NoDup (flat_map g l).
Proof.
  induction l as [|a l IH]; intros ND Hg Hinj; simpl; [constructor|].
  inversion ND as [|? ? Ha ND']; subst.
  apply NoDup_app.
  - apply Hg; simpl; auto.
  - apply IH; auto.
    + intros; apply Hg; simpl; auto.
    + intros a1 a2 b H1 H2; apply Hinj; simpl; auto.
  - intros b Hb Hb'. apply in_flat_map in Hb'. destruct Hb' as (a' & Ha' & Hb').
    assert (a = a') by (apply (Hinj a a' b); simpl; auto).
    subst; contradiction.
Qed.

Lemma traversal_In og i j k l :
  In (i, j, k, l) (traversal og) <->
  (i < length (gridS og) /\ j < length (gridS og)
   /\ k < length (gridI og) /\ l < length (gridI og))%nat.
Proof.
  unfold traversal. split.
  - intros H.
    apply in_flat_map in H. destruct H as (i' & Hi & H).
    apply in_flat_map in H. destruct H as (j' & Hj & H).
    apply in_flat_map in H. destruct H as (k' & Hk & H).
    apply in_map_iff in H. destruct H as (l' & E & Hl).
    inversion E; subst.
    apply in_seq in Hi, Hj, Hk, Hl. lia.
  - intros (Hi & Hj & Hk & Hl).
    apply in_flat_map. exists i. split; [apply in_seq; lia|].
    apply in_flat_map. exists j. split; [apply in_seq; lia|].
    apply in_flat_map. exists k. split; [apply in_seq; lia|].
    apply in_map_iff. exists l. split; [reflexivity|apply in_seq; lia].
Qed.

Lemma traversal_NoDup og : NoDup (traversal og).
Proof.
  unfold traversal.
  apply NoDup_flat_map; [apply seq_NoDup| |].
  - intros i _. apply NoDup_flat_map; [apply seq_NoDup| |].
    + intros j _. apply NoDup_flat_map; [apply seq_NoDup| |].
      * intros k _. apply NoDup_map_NoDup_ForallPairs; [|apply seq_NoDup].
        intros a b _ _ E. now inversion E.
      * intros k k' b _ _ H1 H2.
        apply in_map_iff in H1, H2.
        destruct H1 as (? & E1 & _), H2 as (? & E2 & _).
        subst b. now inversion E2.
    + intros j j' b _ _ H1 H2.
      apply in_flat_map in H1, H2.
      destruct H1 as (? & _ & H1), H2 as (? & _ & H2).
      apply in_map_iff in H1, H2.
      destruct H1 as (? & E1 & _), H2 as (? & E2 & _).
      subst b. now inversion E2.
  - intros i i' b _ _ H1 H2.
    apply in_flat_map in H1, H2.
    destruct H1 as (? & _ & H1), H2 as (? & _ & H2).
    apply in_flat_map in H1, H2.
    destruct H1 as (? & _ & H1), H2 as (? & _ & H2).
    apply in_map_iff in H1, H2.
    destruct H1 as (? & E1 & _), H2 as (? & E2 & _).
    subst b. now inversion E2.
Qed.

Lemma flat_map_nil {A B : Type} (g : A -> list B) (l : list A) :
  (forall a, g a = []) -> flat_map g l = [].
Proof. intros H; induction l; simpl; auto. rewrite H; auto. Qed.

(** A sweep that visits any cell at all visits [0,0,0,0] first. *)
Lemma traversal_head og :
  traversal og = [] \/ exists rest, traversal og = origin :: rest.
Proof.
  unfold traversal.
  destruct (length (gridS og)) as [|n]; [left; reflexivity|].
  destruct (length (gridI og)) as [|m].
  - left. apply flat_map_nil. intros i.
    apply flat_map_nil. intros j. reflexivity.
  - right. simpl. eexists. reflexivity.
Qed.

(** The tracked index is the last optimised cell of the prefix, or the
    starting index when the prefix has none. *)
Lemma tracked_after_spec og pre start :
  (exists pre1 t pre2,
      pre = pre1 ++ t :: pre2
      /\ tracked_after og pre start = t
      /\ classify og t = Interior
      /\ forall x, In x pre2 -> classify og x <> Interior)
  \/ (tracked_after og pre start = start
      /\ forall x, In x pre -> classify og x <> Interior).
Proof.
  induction pre as [|c pre IH] using rev_ind.
  - right. split; [reflexivity|intros x []].
  - unfold tracked_after in *. rewrite fold_left_app. simpl.
    destruct (is_interior og c) eqn:E.
    + left. exists pre, c, []. repeat split; auto.
      unfold is_interior in E. now destruct (classify og c).
    + assert (Hc' : classify og c <> Interior).
      { unfold is_interior in E. intros X. now rewrite X in E. }
      destruct IH as [(p1 & t & p2 & -> & Ht & Hc & Hn)|[Ht Hn]].
      * left. exists p1, t, (p2 ++ [c]). rewrite <- app_assoc. simpl.
        repeat split; auto.
        intros x Hx. apply in_app_or in Hx. destruct Hx as [Hx|[<-|[]]];
          auto.
      * right. split; [exact Ht|].
        intros x Hx. apply in_app_or in Hx. destruct Hx as [Hx|[<-|[]]];
          auto.
Qed.

(* ================================================================== *)
(** ** The sweep, cell by cell *)

Section SweepClaims.

Variable minimize :
  (vec2 -> result R) -> vec2 -> bounds -> result (vec2 * R).
Variable empty_like : varray -> varray.

Lemma T_of_sweep v og vg vn :
  T minimize empty_like v og = Ok (vg, vn) <->
  exists st, T_sweep minimize empty_like v og = Ok st
             /\ vg = v_greedy st /\ vn = v_new st.
Proof.
  unfold T. destruct (T_sweep minimize empty_like v og) as [st|e]; simpl.
  - split.
    + intros H; injection H as <- <-. exists st; auto.
    + intros (st' & H & -> & ->). injection H as <-. reflexivity.
  - split; [discriminate|]. intros (st' & H & _); discriminate.
Qed.

(** The cell from which the tracked index is read at a visit is a cell
    already visited, or the visited cell itself. *)
Lemma tracked_visited og pre c post :
  traversal og = pre ++ c :: post ->
  let t := tracked_after og pre origin in
  t = c \/ In t pre.
Proof.
  intros Htr. cbv zeta.
  destruct (tracked_after_spec og pre origin)
    as [(p1 & t & p2 & -> & Ht & _)|[Ht _]]; rewrite Ht.
  - right. apply in_or_app; simpl; auto.
  - destruct (cell_eq_dec origin c) as [|Hne]; [left; assumption|right].
    destruct (traversal_head og) as [E|[rest E]]; rewrite E in Htr.
    + destruct pre; discriminate.
    + destruct pre as [|a pre]; simpl in Htr; injection Htr as E1 E2.
      * congruence.
      * left; congruence.
Qed.

(** What a sweep leaves at a post-herd cell. *)
Lemma sweep_post_herd v og st c :
  T_sweep minimize empty_like v og = Ok st ->
  In c (traversal og) ->
  within_bound (bellman_at og c) ->
  sum_all (bellman_at og c) < 1 - herd_threshold ->
  T minimize empty_like v og = Ok (v_greedy st, v_new st)
  /\ v_new st c = 0
  /\ v_greedy st c = bc 0
  /\ ~ In c (invoked st).
Proof.
  intros Hs Hin Hb Hm.
  assert (Hc : classify og c = PostHerd) by (apply classify_postherd; auto).
  split; [apply T_of_sweep; eauto|].
  pose proof (traversal_NoDup og) as ND.
  destruct (in_split _ _ Hin) as (pre & post & Htr).
  unfold T_sweep in Hs. rewrite Htr in Hs, ND.
  destruct (T_loop_visit _ _ _ _ _ _ _ _ _ ND Hs)
    as (st1 & st2 & H1 & H2 & _ & Hv & Hg & _).
  apply T_body_inv in H2. destruct H2 as (_ & _ & _ & Hst).
  unfold stored in Hst. rewrite Hc in Hst. destruct Hst as [Hv0 Hg0].
  repeat split; try congruence.
  apply T_loop_inv in Hs. destruct Hs as (_ & _ & Hi).
  rewrite Hi. simpl. intros X. apply filter_In in X.
  destruct X as [_ X]. unfold is_interior in X. now rewrite Hc in X.
Qed.

(** What a sweep leaves at an exterior cell. *)
Lemma sweep_exterior v og vg vn pre c post :
  T minimize empty_like v og = Ok (vg, vn) ->
  traversal og = pre ++ c :: post ->
  ~ within_bound (bellman_at og c) ->
  let t := tracked_after og pre origin in
  vn c = vn t /\ vg c = vg t
  /\ ((exists pre1 pre2,
          pre = pre1 ++ t :: pre2
          /\ classify og t = Interior
          /\ forall x, In x pre2 -> classify og x <> Interior)
      \/ (t = origin /\ forall x, In x pre -> classify og x <> Interior)).
Proof.
  intros HT Htr Hb. cbv zeta.
  pose proof (tracked_visited og pre c post Htr) as Hvis. cbv zeta in Hvis.
  pose proof (tracked_after_spec og pre origin) as Hspec.
  remember (tracked_after og pre origin) as t eqn:Et.
  assert (Hc : classify og c = Exterior) by (apply classify_exterior; auto).
  apply T_of_sweep in HT. destruct HT as (st & Hs & -> & ->).
  pose proof (traversal_NoDup og) as ND.
  unfold T_sweep in Hs. rewrite Htr in Hs, ND.
  destruct (T_loop_visit _ _ _ _ _ _ _ _ _ ND Hs)
    as (st1 & st2 & H1 & H2 & Ht & Hv & Hg & Hpre).
  apply T_body_inv in H2. destruct H2 as (_ & _ & _ & Hst).
  unfold stored in Hst. rewrite Hc in Hst. destruct Hst as [Hv0 Hg0].
  simpl in Ht. fold origin in Ht. rewrite <- Et in Ht. rewrite Ht in Hv0, Hg0.
  assert (Hcopy : v_new st c = v_new st t /\ v_greedy st c = v_greedy st t).
  { destruct Hvis as [E|Hin].
    - rewrite E. auto.
    - destruct (Hpre t Hin) as [-> ->]. split; congruence. }
  destruct Hcopy as [Hcv Hcg].
  split; [exact Hcv|split; [exact Hcg|]].
  destruct Hspec as [(p1 & t' & p2 & E & Ht' & Hi & Hn)|[Ht' Hn]].
  - left. subst t'. exists p1, p2. auto.
  - right. auto.
Qed.

(** C2. Every cell within the per-group population bound whose aggregate
    state mass is strictly below [1 - herd_threshold] ends the sweep with
    value 0 and policy [0, 0], and the optimizer was not invoked at it. *)
Theorem T_post_herd_zero v og st c :
  T_sweep minimize empty_like v og = Ok st ->
  In c (traversal og) ->
  within_bound (bellman_at og c) ->
  sum_all (bellman_at og c) < 1 - herd_threshold ->
  T minimize empty_like v og = Ok (v_greedy st, v_new st)
  /\ v_new st c = 0
  /\ v_greedy st c = bc 0
  /\ ~ In c (invoked st).
Proof. apply sweep_post_herd. Qed.

(** C1 (amended). An exterior cell ends the sweep with the value and the
    policy held at the tracked index [sy, so, iy, io] as it stands when
    the cell is visited: the last cell optimised before it in traversal
    order if there is one, else the initial index [0, 0, 0, 0]; post-herd
    and exterior cells never move the tracked index. *)
Theorem T_exterior_copies_tracked v og vg vn pre c post :
  T minimize empty_like v og = Ok (vg, vn) ->
  traversal og = pre ++ c :: post ->
  ~ within_bound (bellman_at og c) ->
  let t := tracked_after og pre origin in
  vn c = vn t /\ vg c = vg t
  /\ ((exists pre1 pre2,
          pre = pre1 ++ t :: pre2
          /\ classify og t = Interior
          /\ forall x, In x pre2 -> classify og x <> Interior)
      \/ (t = origin /\ forall x, In x pre -> classify og x <> Interior)).
Proof. apply sweep_exterior. Qed.

End SweepClaims.

(* ================================================================== *)
(** ** Grid axes *)

Lemma linspace_length a b n : length (linspace a b n) = n.
Proof. unfold linspace. now rewrite length_map, length_seq. Qed.

Lemma linspace_nth a b n i :
  (i < n)%nat ->
  nth i (linspace a b n) 0 = a + INR i * ((b - a) / INR (n - 1)).
Proof.
  intros H. unfold linspace.
  set (g := fun i : nat => a + INR i * ((b - a) / INR (n - 1))).
  rewrite (nth_indep _ 0 (g 0%nat))
    by (rewrite length_map, length_seq; exact H).
  rewrite (map_nth g), seq_nth by exact H. reflexivity.
Qed.

Lemma linspace_lo a b n : (1 <= n)%nat -> axis_lo (linspace a b n) = a.
Proof.
  intros H. unfold axis_lo. rewrite linspace_nth by lia. simpl. ring.
Qed.

Lemma last_nth {A : Type} (l : list A) (d : A) :
  last l d = nth (length l - 1) l d.
Proof.
  induction l as [|a [|b l] IH]; try reflexivity.
  change (last (a :: b :: l) d) with (last (b :: l) d).
  rewrite IH. simpl. now rewrite Nat.sub_0_r.
Qed.

Lemma linspace_hi a b n : (2 <= n)%nat -> axis_hi (linspace a b n) = b.
Proof.
  intros H. unfold axis_hi. rewrite last_nth, linspace_length.
  rewrite linspace_nth by lia.
  assert (Hn : INR (n - 1) <> 0) by (apply not_0_INR; lia).
  field. exact Hn.
Qed.

Lemma linspace_range a b n i :
  a <= b -> (i < n)%nat ->
  a <= nth i (linspace a b n) 0 <= b.
Proof.
  intros Hab Hi. rewrite linspace_nth by exact Hi.
  destruct (Nat.eq_dec n 1) as [->|Hn1].
  - assert (i = 0%nat) by lia. subst. simpl. lra.
  - assert (Hpos : 0 < INR (n - 1)) by (apply lt_0_INR; lia).
    assert (Hi0 : 0 <= INR i) by apply pos_INR.
    assert (Hi1 : INR i <= INR (n - 1)) by (apply le_INR; lia).
    assert (Hq : 0 <= INR i / INR (n - 1) <= 1).
    { split.
      - apply Rmult_le_pos; [exact Hi0|]. left. now apply Rinv_0_lt_compat.
      - apply Rmult_le_reg_r with (INR (n - 1)); [exact Hpos|].
        unfold Rdiv. rewrite Rmult_assoc, Rinv_l by lra. lra. }
    replace (INR i * ((b - a) / INR (n - 1)))
      with ((b - a) * (INR i / INR (n - 1))) by (field; lra).
    nra.
Qed.

Lemma linspace_increasing a b n i j :
  a < b -> (i < j < n)%nat ->
  nth i (linspace a b n) 0 < nth j (linspace a b n) 0.
Proof.
  intros Hab [Hij Hj].
  rewrite !linspace_nth by lia.
  assert (Hpos : 0 < INR (n - 1)) by (apply lt_0_INR; lia).
  assert (Hstep : 0 < (b - a) / INR (n - 1)).
  { apply Rmult_lt_0_compat; [lra|]. now apply Rinv_0_lt_compat. }
  assert (Hlt : INR i < INR j) by (apply lt_INR; exact Hij).
  nra.
Qed.

Lemma Model_init_increasing u0 f0 n :
  increasing (gridS (Model_init u0 f0 n))
  /\ increasing (gridI (Model_init u0 f0 n)).
Proof.
  split; intros a b; cbn [gridS gridI Model_init]; rewrite linspace_length;
    intros H; apply linspace_increasing; try lra; exact H.
Qed.

(** The state point of a visited cell of a constructed model lies in the
    grid's box. *)
Lemma bellman_at_range u0 f0 n c :
  In c (traversal (Model_init u0 f0 n)) ->
  let st := bellman_at (Model_init u0 f0 n) c in
  (1e-4 <= fst (fst st) <= 1 /\ 1e-4 <= snd (fst st) <= 1)
  /\ (1e-4 <= fst (snd st) <= 0.5 /\ 1e-4 <= snd (snd st) <= 0.5).
Proof.
  destruct c as [[[i j] k] l]. intros H.
  apply traversal_In in H. simpl in H. rewrite !linspace_length in H.
  destruct H as (Hi & Hj & Hk & Hl). simpl.
  repeat split; apply linspace_range; auto; lra.
Qed.

(* ================================================================== *)
(** ** The interpolant *)

(** The blend over the 16 corners is one linear interpolation per axis,
    nested, in the cell that [find_index] selects. *)
Lemma quadrilinear_nested g1 g2 g3 g4 values x1 x2 x3 x4 :
  quadrilinear (g1, g2, g3, g4) values (x1, x2, x3, x4) =
  multilinear (g1, g2, g3, g4) values
    (find_index g1 x1, find_index g2 x2, find_index g3 x3, find_index g4 x4)
    (x1, x2, x3, x4).
Proof.
  unfold quadrilinear, multilinear, lerp, norm_distance, corners, blend_weight.
  cbn [flat_map map app Rsum fold_right].
  rewrite !Nat.add_0_r, !Nat.add_1_r. ring.
Qed.

Lemma filter_length_prefix (q : R -> bool) g : forall k,
  (k <= length g)%nat ->
  (forall a, (a < k)%nat -> q (nth a g 0) = true) ->
  (forall a, (k <= a < length g)%nat -> q (nth a g 0) = false) ->
  length (filter q g) = k.
Proof.
  induction g as [|y g IH]; intros k Hk Ht Hf.
  - simpl in *. lia.
  - destruct k as [|k].
    + assert (H0 : q y = false) by (apply (Hf 0%nat); simpl; lia).
      simpl. rewrite H0.
      apply (IH 0%nat); [lia|intros a Ha; lia|].
      intros a Ha. apply (Hf (S a)). simpl. lia.
    + assert (H0 : q y = true) by (apply (Ht 0%nat); lia).
      simpl. rewrite H0. simpl. f_equal.
      apply IH; [simpl in Hk; lia| |].
      * intros a Ha. apply (Ht (S a)). lia.
      * intros a Ha. apply (Hf (S a)). simpl. lia.
Qed.

Lemma increasing_le g a b :
  increasing g -> (a <= b < length g)%nat -> nth a g 0 <= nth b g 0.
Proof.
  intros Hg [Hab Hb]. destruct (Nat.eq_dec a b) as [->|Hne]; [lra|].
  left. apply Hg. lia.
Qed.

Lemma find_index_inside g i x :
  increasing g -> (S i < length g)%nat ->
  nth i g 0 < x <= nth (S i) g 0 ->
  find_index g x = i.
Proof.
  intros Hg Hi [Hlo Hhi]. unfold find_index.
  rewrite (filter_length_prefix _ g (S i)); [simpl; lia|lia| |].
  - intros a Ha. apply Rltb_true.
    assert (nth a g 0 <= nth i g 0) by (apply increasing_le; [exact Hg|lia]).
    lra.
  - intros a Ha. apply Rltb_false.
    assert (nth (S i) g 0 <= nth a g 0) by (apply increasing_le; [exact Hg|lia]).
    lra.
Qed.

Lemma find_index_node g i :
  increasing g -> (S i < length g)%nat ->
  find_index g (nth i g 0) = pred i.
Proof.
  intros Hg Hi. unfold find_index.
  rewrite (filter_length_prefix _ g i); [lia|lia| |].
  - intros a Ha. apply Rltb_true. apply Hg. lia.
  - intros a Ha. apply Rltb_false. apply increasing_le; [exact Hg|lia].
Qed.

Lemma lerp_lower g i a : lerp g i (nth i g 0) a = a i.
Proof. unfold lerp. replace (nth i g 0 - nth i g 0) with 0 by ring.
  unfold Rdiv. rewrite Rmult_0_l. ring. Qed.

Lemma lerp_upper g i a :
  nth i g 0 < nth (S i) g 0 -> lerp g i (nth (S i) g 0) a = a (S i).
Proof. intros H. unfold lerp. field. lra. Qed.

Lemma lerp_find_index g i x a :
  increasing g -> in_cell g i x ->
  lerp g (find_index g x) x a = lerp g i x a.
Proof.
  intros Hg [Hi [Hlo Hhi]].
  destruct (Rle_lt_or_eq_dec _ _ Hlo) as [Hlt|<-].
  - now rewrite (find_index_inside g i x Hg Hi (conj Hlt Hhi)).
  - rewrite (find_index_node g i Hg Hi), lerp_lower.
    destruct i as [|i]; [apply lerp_lower|].
    simpl pred. apply lerp_upper. apply Hg. lia.
Qed.

Lemma lerp_ext g i x a b :
  a i = b i -> a (S i) = b (S i) -> lerp g i x a = lerp g i x b.
Proof. intros H0 H1. unfold lerp. now rewrite H0, H1. Qed.

Lemma quadrilinear_in_cell g1 g2 g3 g4 values i j k l x1 x2 x3 x4 :
  increasing g1 -> increasing g2 -> increasing g3 -> increasing g4 ->
  in_cell g1 i x1 -> in_cell g2 j x2 -> in_cell g3 k x3 -> in_cell g4 l x4 ->
  quadrilinear (g1, g2, g3, g4) values (x1, x2, x3, x4) =
  multilinear (g1, g2, g3, g4) values (i, j, k, l) (x1, x2, x3, x4).
Proof.
  intros G1 G2 G3 G4 C1 C2 C3 C4.
  rewrite quadrilinear_nested. unfold multilinear.
  rewrite (lerp_find_index g1 i x1 _ G1 C1).
  apply lerp_ext;
    (rewrite (lerp_find_index g2 j x2 _ G2 C2); apply lerp_ext;
     (rewrite (lerp_find_index g3 k x3 _ G3 C3); apply lerp_ext;
      apply (lerp_find_index g4 l x4 _ G4 C4))).
Qed.

(** Every grid point of an axis with at least two points lies in a grid
    interval, as its lower or as its upper end. *)
Lemma lerp_node g i a :
  increasing g -> (i < length g)%nat -> (2 <= length g)%nat ->
  lerp g (find_index g (nth i g 0)) (nth i g 0) a = a i.
Proof.
  intros Hg Hi Hn.
  destruct (Nat.lt_ge_cases (S i) (length g)) as [Hlt|Hge].
  - assert (C : in_cell g i (nth i g 0)).
    { split; [exact Hlt|]. split; [lra|]. apply increasing_le; [exact Hg|lia]. }
    rewrite (lerp_find_index g i _ _ Hg C). apply lerp_lower.
  - destruct i as [|i]; [lia|].
    assert (C : in_cell g i (nth (S i) g 0)).
    { split; [lia|]. split; [|lra]. apply increasing_le; [exact Hg|lia]. }
    rewrite (lerp_find_index g i _ _ Hg C). apply lerp_upper. apply Hg. lia.
Qed.

Lemma quadrilinear_node g1 g2 g3 g4 values i j k l :
  increasing g1 -> increasing g2 -> increasing g3 -> increasing g4 ->
  (i < length g1)%nat -> (j < length g2)%nat ->
  (k < length g3)%nat -> (l < length g4)%nat ->
  (2 <= length g1)%nat -> (2 <= length g2)%nat ->
  (2 <= length g3)%nat -> (2 <= length g4)%nat ->
  quadrilinear (g1, g2, g3, g4) values
    (nth i g1 0, nth j g2 0, nth k g3 0, nth l g4 0)
  = values (i, j, k, l).
Proof.
  intros G1 G2 G3 G4 Hi Hj Hk Hl N1 N2 N3 N4.
  rewrite quadrilinear_nested. unfold multilinear.
  rewrite (lerp_node g1 i _ G1 Hi N1), (lerp_node g2 j _ G2 Hj N2),
    (lerp_node g3 k _ G3 Hk N3).
  exact (lerp_node g4 l (fun l' => values (i, j, k, l')) G4 Hl N4).
Qed.

Lemma node_in_axis g i :
  increasing g -> (i < length g)%nat -> in_axis g (Fin (nth i g 0)) = true.
Proof.
  intros Hg Hi. simpl. unfold axis_lo, axis_hi. rewrite last_nth.
  apply andb_true_iff; split; apply Rleb_true;
    apply increasing_le; try exact Hg; lia.
Qed.

(* ================================================================== *)
(** ** The transition model *)

(** A finite coordinate within [[lo, hi]]. *)
Definition clamped (lo hi : R) (x : xreal) : Prop :=
  exists r, x = Fin r /\ lo <= r <= hi.

Lemma np_div_NaN x y : np_div x y = NaN <-> y = 0 /\ x = 0.
Proof.
  unfold np_div.
  destruct (Reqb y 0) eqn:Ey; [destruct (Reqb x 0) eqn:Ex|]; rbool.
  - tauto.
  - destruct (Rltb 0 x); split; try discriminate; tauto.
  - split; [discriminate|tauto].
Qed.

(** The two clamps together: NaN stays NaN, everything else lands in
    the interval. *)
Lemma np_clamp x lo hi :
  lo <= hi ->
  (x = NaN /\ np_maximum (np_minimum x hi) lo = NaN)
  \/ (x <> NaN /\ clamped lo hi (np_maximum (np_minimum x hi) lo)).
Proof.
  intros H. unfold clamped. destruct x as [r| | |]; simpl.
  - right. split; [discriminate|]. eexists; split; [reflexivity|].
    unfold Rmax, Rmin. destruct (Rle_dec r hi); destruct (Rle_dec _ lo); lra.
  - right. split; [discriminate|]. eexists; split; [reflexivity|].
    unfold Rmax. destruct (Rle_dec hi lo); lra.
  - right. split; [discriminate|]. eexists; split; [reflexivity|]. lra.
  - left. auto.
Qed.

Lemma death_step_range (L : vec2) (st : state) :
  0 <= fst (death_step L st) <= 1 /\ 0 <= snd (death_step L st) <= 1.
Proof.
  unfold death_step, vmax, vmin, vzip, bc; simpl fst; simpl snd.
  split; split;
    match goal with
    | |- 0 <= Rmax ?a 0 => apply Rmax_r
    | |- Rmax (Rmin ?a 1.0) 0 <= 1 =>
        apply Rmax_lub; [apply Rle_trans with 1.0; [apply Rmin_r|lra]|lra]
    end.
Qed.

(** The returned [D_new] is [death_step], and each returned coordinate
    is the clamped quotient of some numerator by [1 - D_new]. *)
Lemma dynamics_shape (L : vec2) (st : state) :
  exists numS numI numR,
    dynamics L st =
    (xvmaximum (xvminimum (xvdiv numS (bc 1 - death_step L st)%vec) 1.0)
               (1e-4 + 1e-5),
     xvmaximum (xvminimum (xvdiv numI (bc 1 - death_step L st)%vec) 0.5)
               (1e-4 + 1e-5),
     xvmaximum (xvminimum (xvdiv numR (bc 1 - death_step L st)%vec) 1.0)
               (1e-4 + 1e-5),
     death_step L st).
Proof. do 3 eexists. reflexivity. Qed.

(** Within the control box and the grid's box, fewer than all die. *)
Lemma death_step_lt_1 (L : vec2) (st : state) :
  in_box T_bds L ->
  (0 <= fst (fst st) <= 1 /\ 0 <= snd (fst st) <= 1) ->
  (0 <= fst (snd st) <= 0.5 /\ 0 <= snd (snd st) <= 0.5) ->
  fst (death_step L st) < 1 /\ snd (death_step L st) < 1.
Proof.
  destruct L as [L0 L1], st as [[S0 S1] [I0 I1]].
  unfold in_box, T_bds, L_max. simpl.
  intros [[HL0 HL0'] [HL1 HL1']] [[HS0 HS0'] [HS1 HS1']]
         [[HI0 HI0'] [HI1 HI1']].
  unfold death_step, phi, indir, sum_axis0, vmax, vmin, vadd, vsub, vmul,
    vzip, vsum, bc, P, gamma, alpha_L, dt; simpl fst; simpl snd.
  split; apply Rmax_lub_lt; try lra;
    (eapply Rle_lt_trans; [apply Rmin_l|]); nra.
Qed.

(** On the whole state space, the box [[0, 1]^2 x [0, 0.5]^2] of the
    grid, and for every lockdown between 0 and 1, fewer than all die. *)
Lemma death_step_below_1 (L : vec2) (st : state) :
  (0 <= fst L <= 1 /\ 0 <= snd L <= 1) ->
  (0 <= fst (fst st) <= 1 /\ 0 <= snd (fst st) <= 1) ->
  (0 <= fst (snd st) <= 0.5 /\ 0 <= snd (snd st) <= 0.5) ->
  fst (death_step L st) < 1 /\ snd (death_step L st) < 1.
Proof.
  destruct L as [L0 L1], st as [[S0 S1] [I0 I1]]. cbv [fst snd].
  intros [[HL0 HL0'] [HL1 HL1']] [[HS0 HS0'] [HS1 HS1']]
         [[HI0 HI0'] [HI1 HI1']].
  unfold death_step, phi, indir, sum_axis0, vmax, vmin, vadd, vsub, vmul,
    vzip, vsum, bc, P, gamma, alpha_L, dt; simpl fst; simpl snd.
  split; apply Rmax_lub_lt; try lra;
    (eapply Rle_lt_trans; [apply Rmin_l|]); nra.
Qed.

Lemma clamped_quotient num D lo hi :
  lo <= hi -> D < 1 ->
  clamped lo hi (np_maximum (np_minimum (np_div num (1 - D)) hi) lo).
Proof.
  intros Hle HD.
  destruct (np_clamp (np_div num (1 - D)) lo hi Hle) as [[E _]|[_ H]];
    [|exact H].
  apply np_div_NaN in E. lra.
Qed.

Lemma clamped_weaken lo hi lo' hi' x :
  lo' <= lo -> hi <= hi' -> clamped lo hi x -> clamped lo' hi' x.
Proof. intros ? ? (r & -> & ?). exists r. split; [reflexivity|lra]. Qed.

Lemma clamped_in_axis g x :
  clamped (axis_lo g) (axis_hi g) x -> in_axis g x = true.
Proof.
  intros (r & -> & Hlo & Hhi). simpl.
  apply andb_true_iff; split; apply Rleb_true; assumption.
Qed.

(** The grids of a constructed model with at least two points per axis
    span [[1e-4, 1]] and [[1e-4, 0.5]]. *)
Lemma Model_init_in_domain u0 f0 n (s0 i0 : xvec2) :
  (2 <= n)%nat ->
  clamped 1e-4 1 (fst s0) -> clamped 1e-4 1 (snd s0) ->
  clamped 1e-4 0.5 (fst i0) -> clamped 1e-4 0.5 (snd i0) ->
  let og := Model_init u0 f0 n in
  in_domain (gridS og, gridS og, gridI og, gridI og) (concatenate s0 i0)
  = true.
Proof.
  intros Hn H1 H2 H3 H4. simpl. unfold concatenate.
  rewrite !andb_true_iff. repeat split; apply clamped_in_axis;
    rewrite linspace_lo, linspace_hi by lia; assumption.
Qed.

(** Below a death fraction of 1 the next state is clamped. *)
Lemma dynamics_clamped (L : vec2) (st : state) :
  fst (death_step L st) < 1 -> snd (death_step L st) < 1 ->
  let '(S_new, I_new, R_new, D_new) := dynamics L st in
  (clamped (1e-4 + 1e-5) 1 (fst S_new) /\ clamped (1e-4 + 1e-5) 1 (snd S_new))
  /\ (clamped (1e-4 + 1e-5) 0.5 (fst I_new)
      /\ clamped (1e-4 + 1e-5) 0.5 (snd I_new)).
Proof.
  intros H0 H1.
  destruct (dynamics_shape L st) as (numS & numI & numR & E). rewrite E.
  unfold xvmaximum, xvminimum, xvdiv, vsub, vzip, bc; simpl fst; simpl snd.
  repeat split;
    (eapply clamped_weaken; [| |apply clamped_quotient; [|eassumption]]; lra).
Qed.

(** Below a death fraction of 1 the objective is defined: the
    interpolator's bounds check passes. *)
Lemma obj_func_defined n (L : vec2) (st : state) v :
  (2 <= n)%nat ->
  fst (death_step L st) < 1 -> snd (death_step L st) < 1 ->
  exists r, obj_func (Model_init cost dynamics n) L st v = Ok r.
Proof.
  intros Hn H0 H1.
  pose proof (dynamics_clamped L st H0 H1) as Hc.
  unfold obj_func.
  change (f (Model_init cost dynamics n)) with dynamics.
  destruct (dynamics L st) as [[[s0 i0] r0] d0].
  destruct Hc as [[Hs0 Hs1] [Hi0 Hi1]].
  unfold RegularGridInterpolator.
  rewrite (Model_init_in_domain cost dynamics n s0 i0 Hn);
    try (eapply clamped_weaken; [| |eassumption]; lra).
  unfold concatenate. simpl. eexists. reflexivity.
Qed.

(** During a sweep over a constructed model, the objective is defined at
    every visited cell and every control of the box. *)
Lemma sweep_objective_defined n v c x :
  (2 <= n)%nat ->
  let og := Model_init cost dynamics n in
  In c (traversal og) ->
  in_box T_bds x ->
  exists r, obj_func og x (bellman_at og c) v = Ok r.
Proof.
  intros Hn og Hc Hx. subst og.
  pose proof (bellman_at_range cost dynamics n c Hc) as [HS HI].
  cbv zeta in HS, HI.
  apply obj_func_defined; [assumption| |];
    apply death_step_lt_1; try assumption;
    destruct (bellman_at (Model_init cost dynamics n) c) as [[S0 S1] [I0 I1]];
    simpl in *; lra.
Qed.

Lemma np_div_zero_zero x y : x = 0 -> y = 0 -> np_div x y = NaN.
Proof.
  intros Hx Hy. unfold np_div.
  destruct (Reqb y 0) eqn:Ey; rbool; [|contradiction].
  destruct (Reqb x 0) eqn:Ex; rbool; [reflexivity|contradiction].
Qed.

(** Outside the state space NaN does occur.  A state with no
    susceptibles and an infection mass far above the population, under
    no lockdown: everybody dies within the step, both
    the numerator and the divisor of the susceptible quotient are zero,
    and the clamps return NaN. *)
Lemma dynamics_all_dead :
  let '(S_new, I_new, R_new, D_new) :=
    dynamics (0, 0) ((0, 0), (100, 100)) in
  fst D_new = 1 /\ fst S_new = NaN.
Proof.
  unfold dynamics.
  cbv [xvmaximum xvminimum xvdiv vadd vsub vmul vneg vmin vmax vzip vmap
       bc fst snd sum_axis0 indir phi vsum mdot betaBSIR mscal].
  assert (HD : Rmax (Rmin (dt * ((0.000634 * gamma
                    + 0.00845 * gamma * (100 + 100)) * 100
                    + alpha_L * 0 * (0 + (0.818 - (0 + 100))))) 1.0) 0 = 1).
  { unfold dt, gamma, alpha_L. rewrite Rmin_right by lra.
    rewrite Rmax_left by lra. lra. }
  unfold P. cbv [fst snd]. rewrite HD. split; [reflexivity|].
  rewrite np_div_zero_zero; [reflexivity| |lra].
  unfold dt. ring.
Qed.

(* ================================================================== *)
(** ** The welfare cost *)

(** The four components of the cost, each summed over the two groups. *)
Definition lost_salary (L_c : vec2) (st : state) : R :=
  let S_c := fst st in
  let I_c := snd st in
  let R_c := (P - (S_c + I_c))%vec in
  vsum (w * L_c * bc (1 - wfh) * (S_c + I_c + bc p * R_c))%vec.

Definition covid_deaths (st : state) : R :=
  let I_c := snd st in
  vsum (((chi + w) / bc ir * (bc 1 - vexp (bc (- ir) * career)))
        * phi I_c * I_c)%vec.

Definition non_covid_deaths (L_c : vec2) (st : state) : R :=
  let S_c := fst st in
  let I_c := snd st in
  let R_c := (P - (S_c + I_c))%vec in
  vsum ((w / bc ir * (bc 1 - vexp (bc (- ir) * career)))
        * indir L_c * (bc F + S_c + R_c))%vec.

Definition future_unemployment (L_c : vec2) (st : state) : R :=
  let S_c := fst st in
  let I_c := snd st in
  let R_c := (P - (S_c + I_c))%vec in
  vsum (empl L_c * (S_c + R_c))%vec.

(** The discounted value of a unit income stream over the remaining
    career of the young, [(1 - exp(-ir * career)) / ir]. *)
Definition career_value : R := (1 - exp (- ir * (20 * 365))) / ir.

Lemma ir_pos : 0 < ir.
Proof. unfold ir. lra. Qed.

Lemma career_value_pos : 0 < career_value.
Proof.
  unfold career_value. apply Rmult_lt_0_compat.
  - assert (exp (- ir * (20 * 365)) < exp 0).
    { apply exp_increasing. pose proof ir_pos. nra. }
    rewrite exp_0 in H. lra.
  - apply Rinv_0_lt_compat, ir_pos.
Qed.

(** The cost in closed form: the old earn nothing ([w = [1, 0]]) and have
    no career left, so only the young contribute. *)
Lemma cost_closed_form (L : vec2) (st : state) :
  vsum (snd st) <> 0 ->
  cost L st =
    fst L * (1 - wfh) * fst P
    + 11 * career_value
      * (0.000634 * gamma + 0.00845 * gamma * vsum (snd st)) * fst (snd st)
    + career_value * (alpha_L * fst L) * (F + fst P - fst (snd st))
    + alpha_E * fst L * (fst P - fst (snd st)).
Proof.
  intros HI. unfold cost.
  destruct (Reqb (vsum (snd st)) 0) eqn:E; rbool; [contradiction|].
  destruct L as [L0 L1], st as [[S0 S1] [I0 I1]].
  unfold career_value, empl, indir, phi, chi, w, career, p, P, vexp, vmap,
    vadd, vsub, vmul, vdiv, vzip, vsum, bc. cbv [fst snd].
  replace (- ir * 0) with 0 by ring. rewrite exp_0.
  pose proof ir_pos. field. lra.
Qed.

(** Without infection the cost is 0, by the first branch. *)
Lemma cost_zero_mass (L : vec2) (st : state) :
  vsum (snd st) = 0 -> cost L st = 0.
Proof.
  intros Hz. unfold cost.
  destruct (Reqb (vsum (snd st)) 0) eqn:E; rbool; [reflexivity|contradiction].
Qed.

(** C9. For every control within the box bounds and every state with
    non-negative entries whose per-group column sums do not exceed the
    population shares plus the slack, the cost is non-negative, and it is
    exactly 0 when the total infection mass is zero. *)
Theorem cost_nonneg (L : vec2) (st : state) :
  in_box T_bds L ->
  0 <= fst (fst st) -> 0 <= snd (fst st) ->
  0 <= fst (snd st) -> 0 <= snd (snd st) ->
  within_bound st ->
  0 <= cost L st /\ (vsum (snd st) = 0 -> cost L st = 0).
Proof.
  intros HL HS0 HS1 HI0 HI1 HB.
  assert (Hzero : vsum (snd st) = 0 -> cost L st = 0).
  { intros Hz. unfold cost.
    destruct (Reqb (vsum (snd st)) 0) eqn:E; rbool;
      [reflexivity|contradiction]. }
  split; [|exact Hzero].
  destruct (Req_dec_T (vsum (snd st)) 0) as [Hz|Hnz].
  - rewrite (Hzero Hz). lra.
  - rewrite (cost_closed_form L st Hnz).
    pose proof career_value_pos as HK.
    destruct L as [L0 L1], st as [[S0 S1] [I0 I1]].
    unfold in_box, T_bds, L_max, within_bound, sum_axis0, vadd, vzip, P in *.
    unfold vsum, wfh, gamma, alpha_L, alpha_E, F, P. cbv [fst snd] in *.
    destruct HL as [[HL0 HL0'] _]. destruct HB as [HB0 _].
    assert (HL0p : 0 <= L0) by lra.
    assert (HI0' : I0 <= 0.838) by lra.
    assert (T2 : 0 <= 11 * career_value
                      * (0.000634 * (1 / 18) + 0.00845 * (1 / 18) * (I0 + I1))
                      * I0).
    { apply Rmult_le_pos; [apply Rmult_le_pos|]; nra. }
    assert (T3 : 0 <= career_value * (0.00001 * L0) * (1 + 0.818 - I0)).
    { apply Rmult_le_pos; [apply Rmult_le_pos|]; nra. }
    nra.
Qed.

(** C10 (amended). With a non-zero infection mass the cost is the sum
    of the lost-salary, COVID-death, non-COVID-death and
    future-unemployment terms only, and with a zero infection mass it is
    0: the ICU penalty is evaluated and dropped, so wherever the penalty
    is positive the cost differs from the sum that would include it. *)
Theorem cost_excludes_ICU (L : vec2) (st : state) :
  cost L st =
    (if Reqb (vsum (snd st)) 0 then 0
     else lost_salary L st + covid_deaths st + non_covid_deaths L st
          + future_unemployment L st)
  /\ (vsum (snd st) <> 0 -> 0 < ICU (snd st) ->
      cost L st <>
        lost_salary L st + covid_deaths st + non_covid_deaths L st
        + future_unemployment L st + ICU (snd st)).
Proof.
  assert (E : cost L st =
    (if Reqb (vsum (snd st)) 0 then 0
     else lost_salary L st + covid_deaths st + non_covid_deaths L st
          + future_unemployment L st)).
  { unfold cost, lost_salary, covid_deaths, non_covid_deaths,
      future_unemployment.
    destruct (Reqb (vsum (snd st)) 0); [reflexivity|].
    unfold vsum, vadd, vzip. cbv [fst snd]. ring. }
  split; [exact E|].
  intros Hnz HICU. rewrite E.
  destruct (Reqb (vsum (snd st)) 0) eqn:Ez; rbool; [contradiction|lra].
Qed.

(* ================================================================== *)
(** ** Optimizers *)

(** An optimizer keeps to its box when every point it returns lies
    within the bounds it was given. *)
Definition respects_bounds
    (minimize : (vec2 -> result R) -> vec2 -> bounds -> result (vec2 * R))
    (bds : bounds) : Prop :=
  forall g x0 x m, minimize g x0 bds = Ok (x, m) -> in_box bds x.

(** The projection of a point onto a box. *)
Definition clip (bds : bounds) (x : vec2) : vec2 :=
  (Rmin (Rmax (fst x) (fst (fst bds))) (snd (fst bds)),
   Rmin (Rmax (snd x) (fst (snd bds))) (snd (snd bds))).

(** A bounded optimizer that stops before its first step: it projects
    the initial guess onto the box and returns that point with its
    objective value. *)
Definition first_iterate (g : vec2 -> result R) (x0 : vec2) (bds : bounds)
  : result (vec2 * R) :=
  let x := clip bds x0 in
  fx <- g x ;;
  Ok (x, fx).

Lemma clip_in_box bds x :
  fst (fst bds) <= snd (fst bds) ->
  fst (snd bds) <= snd (snd bds) ->
  in_box bds (clip bds x).
Proof.
  intros H0 H1. unfold in_box, clip. cbv [fst snd].
  destruct bds as [[l0 h0] [l1 h1]], x as [x0 x1]. cbv [fst snd] in *.
  unfold Rmin, Rmax.
  repeat match goal with |- context [Rle_dec ?a ?b] =>
    destruct (Rle_dec a b) end; lra.
Qed.

(** An optimizer starts from the projection of its initial guess when
    it treats a guess outside the box as the nearest point of the box:
    L-BFGS-B clips the guess to the bounds before its first evaluation. *)
Definition starts_from_projection
    (minimize : (vec2 -> result R) -> vec2 -> bounds -> result (vec2 * R))
  : Prop :=
  forall g x0 bds, minimize g x0 bds = minimize g (clip bds x0) bds.

Lemma clip_coordinate_idempotent lo hi x :
  Rmin (Rmax (Rmin (Rmax x lo) hi) lo) hi = Rmin (Rmax x lo) hi.
Proof.
  destruct (Rle_dec lo hi) as [H|H].
  - assert (Hy : lo <= Rmin (Rmax x lo) hi <= hi).
    { split; [apply Rmin_glb; [apply Rmax_r|exact H]|apply Rmin_r]. }
    rewrite (Rmax_left (Rmin (Rmax x lo) hi) lo) by lra.
    apply Rmin_left. lra.
  - assert (E : Rmin (Rmax x lo) hi = hi).
    { apply Rmin_right. pose proof (Rmax_r x lo). lra. }
    rewrite E, Rmax_right by lra. apply Rmin_right. lra.
Qed.

Lemma clip_idempotent bds x : clip bds (clip bds x) = clip bds x.
Proof.
  unfold clip. cbv [fst snd]. now rewrite !clip_coordinate_idempotent.
Qed.

Lemma first_iterate_starts_from_projection :
  starts_from_projection first_iterate.
Proof.
  intros g x0 bds. unfold first_iterate. now rewrite clip_idempotent.
Qed.

Lemma clip_T_bds_start : clip T_bds (0, 1) = (1e-4, 1).
Proof.
  unfold clip, T_bds, L_max. cbv [fst snd]. f_equal.
  - rewrite Rmax_right by lra. apply Rmin_left. lra.
  - rewrite Rmax_left by lra. apply Rmin_left. lra.
Qed.

Lemma T_bds_ordered :
  fst (fst T_bds) <= snd (fst T_bds) /\ fst (snd T_bds) <= snd (snd T_bds).
Proof. unfold T_bds, L_max. cbv [fst snd]. lra. Qed.

Lemma T_loop_total minimize v og bds cells :
  (forall c, In c cells -> classify og c = Interior ->
     exists r, minimize (cell_objective v og c) (0, 1) bds = Ok r) ->
  forall st, exists st', T_loop minimize v og bds cells st = Ok st'.
Proof.
  induction cells as [|c cells IH]; intros H st; simpl.
  - eexists; reflexivity.
  - assert (Hb : exists st1, T_body minimize v og bds st c = Ok st1).
    { destruct (classify og c) eqn:E.
      - rewrite (T_body_exterior _ _ _ _ _ _ E). eexists; reflexivity.
      - rewrite (T_body_postherd _ _ _ _ _ _ E). eexists; reflexivity.
      - rewrite (T_body_interior _ _ _ _ _ _ E).
        destruct (H c (or_introl eq_refl) E) as [[x m] ->].
        simpl. eexists; reflexivity. }
    destruct Hb as [st1 ->]. simpl. apply IH.
    intros c' Hc'. apply H. right; exact Hc'.
Qed.

(** With the optimizer that stops at its projected start, a sweep over a
    constructed model with at least two points per axis returns. *)
Lemma T_sweep_first_iterate el v n :
  (2 <= n)%nat ->
  exists st, T_sweep first_iterate el v (Model_init cost dynamics n) = Ok st.
Proof.
  intros Hn. unfold T_sweep. apply T_loop_total.
  intros c Hc _. unfold first_iterate, cell_objective.
  destruct (sweep_objective_defined n v c (clip T_bds (0, 1)) Hn Hc) as [r ->].
  - apply clip_in_box; apply T_bds_ordered.
  - simpl. eexists; reflexivity.
Qed.

Lemma first_iterate_respects_bounds bds :
  fst (fst bds) <= snd (fst bds) ->
  fst (snd bds) <= snd (snd bds) ->
  respects_bounds first_iterate bds.
Proof.
  intros H0 H1 g x0 x m. unfold first_iterate.
  destruct (g (clip bds x0)); simpl; [|discriminate].
  intros E; injection E as <- _. now apply clip_in_box.
Qed.

(* ================================================================== *)
(** ** The optimised cells *)

(** C3. At an interior-admissible cell the sweep minimises the objective
    [g(control) = u(control, state) * dt
                  + exp(-(nu + ir) * dt) * v(next state)],
    where [v] is the quadrilinear interpolation of the previous value
    array at the susceptible and infected coordinates that the
    transition model returns (and the evaluation raises when that point
    fails the interpolator's bounds check).  On ascending axes the
    interpolant is the nested linear interpolation of the array in
    every grid cell that encloses the point, and when the next state is
    a grid node the continuation value is the array's entry there. *)
Theorem T_minimises_objective minimize v og st c (control : vec2) :
  within_bound (bellman_at og c) ->
  sum_all (bellman_at og c) >= 1 - herd_threshold ->
  let y := bellman_at og c in
  let gs := (gridS og, gridS og, gridI og, gridI og) in
  T_body minimize v og T_bds st c =
    ('(c_star, v_max) <-
        minimize (fun x => obj_func og x y v) (0, 1) T_bds ;;
     Ok {| v_greedy := upd (v_greedy st) c c_star;
           v_new := upd (v_new st) c v_max;
           tracked := c;
           invoked := invoked st ++ [c] |})
  /\ (let '(s0, i0, r0, d0) := f og control y in
      obj_func og control y v =
        if in_domain gs (concatenate s0 i0) then
          Ok (u og control y * dt
              + exp (- (nu + ir) * dt)
                * quadrilinear gs v
                    (fin (fst s0), fin (snd s0), fin (fst i0), fin (snd i0)))
        else Raise ValueError)
  /\ (increasing (gridS og) -> increasing (gridI og) ->
      (forall i j k l x1 x2 x3 x4,
         in_cell (gridS og) i x1 -> in_cell (gridS og) j x2 ->
         in_cell (gridI og) k x3 -> in_cell (gridI og) l x4 ->
         quadrilinear gs v (x1, x2, x3, x4)
         = multilinear gs v (i, j, k, l) (x1, x2, x3, x4))
      /\ ((2 <= length (gridS og))%nat -> (2 <= length (gridI og))%nat ->
          forall i j k l r0 d0,
            (i < length (gridS og))%nat -> (j < length (gridS og))%nat ->
            (k < length (gridI og))%nat -> (l < length (gridI og))%nat ->
            f og control y
            = ((Fin (nth i (gridS og) 0), Fin (nth j (gridS og) 0)),
               (Fin (nth k (gridI og) 0), Fin (nth l (gridI og) 0)),
               r0, d0) ->
            obj_func og control y v
            = Ok (u og control y * dt
                  + exp (- (nu + ir) * dt) * v (i, j, k, l)))).
Proof.
  intros Hb Hm y gs.
  assert (Hc : classify og c = Interior) by (apply classify_interior; auto).
  split; [|split].
  - rewrite (T_body_interior _ _ _ _ _ _ Hc). reflexivity.
  - unfold obj_func, RegularGridInterpolator.
    destruct (f og control y) as [[[s0 i0] r0] d0].
    fold gs. destruct (in_domain gs (concatenate s0 i0)); reflexivity.
  - intros GS GI. split.
    + intros i j k l x1 x2 x3 x4 C1 C2 C3 C4.
      now apply quadrilinear_in_cell.
    + intros NS NI i j k l r0 d0 Hi Hj Hk Hl E.
      unfold obj_func, RegularGridInterpolator. rewrite E.
      unfold concatenate, in_domain. cbn [fst snd].
      rewrite !node_in_axis by assumption. cbn [andb bind fin].
      now rewrite quadrilinear_node.
Qed.

(** C5. At an interior-admissible cell the bounded minimisation is
    started from the corner [(1e-4, L_max[1])] of the control box, the
    lower bound of the first component and the control maximum of the
    second: [minimize_wrap] passes the constant [np.array([0, 1])],
    whatever the cell, the value array and the arrays under construction
    (so never the previous iterate), and an optimizer that starts from
    the projection of its guess onto the box, as L-BFGS-B does, starts
    at that corner. *)
Theorem T_initial_guess minimize v og st c :
  starts_from_projection minimize ->
  within_bound (bellman_at og c) ->
  sum_all (bellman_at og c) >= 1 - herd_threshold ->
  let corner := (fst (fst T_bds), snd (snd T_bds)) in
  T_body minimize v og T_bds st c =
    ('(c_star, v_max) <-
        minimize (cell_objective v og c) corner T_bds ;;
     Ok {| v_greedy := upd (v_greedy st) c c_star;
           v_new := upd (v_new st) c v_max;
           tracked := c;
           invoked := invoked st ++ [c] |})
  /\ corner = (1e-4, snd L_max)
  /\ in_box T_bds corner
  /\ (forall g bds args,
        minimize_wrap minimize g bds args
        = minimize (fun x => g x args) (clip bds (0, 1)) bds).
Proof.
  intros Hproj Hb Hm corner.
  assert (Hc : classify og c = Interior) by (apply classify_interior; auto).
  assert (Ec : clip T_bds (0, 1) = corner)
    by (rewrite clip_T_bds_start; reflexivity).
  split; [|split; [|split]].
  - rewrite (T_body_interior _ _ _ _ _ _ Hc), Hproj, Ec. reflexivity.
  - reflexivity.
  - rewrite <- Ec. apply clip_in_box; apply T_bds_ordered.
  - intros g bds args. unfold minimize_wrap. apply Hproj.
Qed.

(** C6 (amended). After a sweep with an optimizer that keeps to its box,
    every interior-admissible cell holds a policy within
    [[1e-4, L_max_i]] componentwise; every post-herd cell holds the policy
    [(0, 0)], which lies below the lower bound. *)
Theorem T_policy_box minimize el v og st c :
  respects_bounds minimize T_bds ->
  T_sweep minimize el v og = Ok st ->
  In c (traversal og) ->
  within_bound (bellman_at og c) ->
  (sum_all (bellman_at og c) >= 1 - herd_threshold ->
     in_box T_bds (v_greedy st c))
  /\ (sum_all (bellman_at og c) < 1 - herd_threshold ->
       v_greedy st c = (0, 0) /\ ~ in_box T_bds (v_greedy st c)).
Proof.
  intros Hresp Hs Hin Hb.
  pose proof (traversal_NoDup og) as ND.
  destruct (in_split _ _ Hin) as (pre & post & Htr).
  unfold T_sweep in Hs. rewrite Htr in Hs, ND.
  destruct (T_loop_visit _ _ _ _ _ _ _ _ _ ND Hs)
    as (st1 & st2 & H1 & H2 & _ & Hv & Hg & _).
  apply T_body_inv in H2. destruct H2 as (_ & _ & _ & Hst).
  unfold stored in Hst. split; intros Hm.
  - assert (Hc : classify og c = Interior) by (apply classify_interior; auto).
    rewrite Hc in Hst. rewrite Hg. eapply Hresp; exact Hst.
  - assert (Hc : classify og c = PostHerd) by (apply classify_postherd; auto).
    rewrite Hc in Hst. destruct Hst as [_ Hg0]. rewrite Hg, Hg0.
    split; [reflexivity|].
    unfold in_box, T_bds, bc. cbv [fst snd]. intros [[H _] _]. lra.
Qed.

(** C7. For every control between 0 and 1 and every state of the state
    space, susceptible shares in [[0, 1]] and infected shares in
    [[0, 0.5]], the transition model returns susceptible coordinates
    within [[1e-4, 1]] and infected coordinates within [[1e-4, 0.5]],
    which are again states of that space; on a model constructed with at
    least two grid points per axis the interpolation query of the
    objective is then in-domain and the objective is defined.  This
    covers every visited cell of a sweep paired with every control of
    the box, so no evaluation of the objective during a sweep raises. *)
Theorem dynamics_query_in_domain (L : vec2) (st : state) n v :
  (2 <= n)%nat ->
  (0 <= fst L <= 1 /\ 0 <= snd L <= 1) ->
  (0 <= fst (fst st) <= 1 /\ 0 <= snd (fst st) <= 1) ->
  (0 <= fst (snd st) <= 0.5 /\ 0 <= snd (snd st) <= 0.5) ->
  let og := Model_init cost dynamics n in
  (let '(S_new, I_new, R_new, D_new) := dynamics L st in
   (clamped 1e-4 1 (fst S_new) /\ clamped 1e-4 1 (snd S_new))
   /\ (clamped 1e-4 0.5 (fst I_new) /\ clamped 1e-4 0.5 (snd I_new))
   /\ in_domain (gridS og, gridS og, gridI og, gridI og)
                (concatenate S_new I_new) = true)
  /\ (exists r, obj_func og L st v = Ok r)
  /\ (forall c x, In c (traversal og) -> in_box T_bds x ->
        exists r, obj_func og x (bellman_at og c) v = Ok r).
Proof.
  intros Hn HL HS HI og. subst og.
  destruct (death_step_below_1 L st HL HS HI) as [H0 H1].
  split; [|split].
  - pose proof (dynamics_clamped L st H0 H1) as Hc.
    destruct (dynamics L st) as [[[s0 i0] r0] d0].
    destruct Hc as [[Hs0 Hs1] [Hi0 Hi1]].
    assert (A0 : clamped 1e-4 1 (fst s0))
      by (eapply clamped_weaken; [| |exact Hs0]; lra).
    assert (A1 : clamped 1e-4 1 (snd s0))
      by (eapply clamped_weaken; [| |exact Hs1]; lra).
    assert (B0 : clamped 1e-4 0.5 (fst i0))
      by (eapply clamped_weaken; [| |exact Hi0]; lra).
    assert (B1 : clamped 1e-4 0.5 (snd i0))
      by (eapply clamped_weaken; [| |exact Hi1]; lra).
    repeat split; try assumption.
    apply Model_init_in_domain; assumption.
  - apply obj_func_defined; assumption.
  - intros c x Hc Hx. now apply sweep_objective_defined.
Qed.

(* ================================================================== *)
(** ** The value-iteration loop *)

Section Iteration.

Variable minimize :
  (vec2 -> result R) -> vec2 -> bounds -> result (vec2 * R).
Variable empty_like : varray -> varray.
Variable og : Model.
Variable tol : R.

(** [Sweeps v k r e]: starting from the value array [v], [k >= 1] sweeps
    ran one after the other, each on the value array of the one before;
    all but the last had a sup-norm change above [tol]; the last returned
    the pair [r] with sup-norm change [e]. *)
Inductive Sweeps : varray -> nat -> parray * varray -> R -> Prop :=
| Sweeps_last v r e :
    T minimize empty_like v og = Ok r ->
    sup_norm og v (snd r) = Ok e ->
    Sweeps v 1 r e
| Sweeps_next v r1 e1 k r e :
    T minimize empty_like v og = Ok r1 ->
    sup_norm og v (snd r1) = Ok e1 ->
    e1 > tol ->
    Sweeps (snd r1) k r e ->
    Sweeps v (S k) r e.

Lemma io_bind_lift_ok {A B : Type} (a : A) (k : A -> io B) :
  io_bind (io_lift (Ok a)) k = k a.
Proof. unfold io_bind, io_lift. now destruct (k a). Qed.

Lemma io_bind_ok {A B : Type} (out : list msg) (a : A) (k : A -> io B) :
  io_bind (out, Ok a) k = (out ++ fst (k a), snd (k a)).
Proof. unfold io_bind. now destruct (k a). Qed.

(** The line printed inside the loop. *)
Definition loop_print (verbose : bool) (print_skip : Z) (it : Z) (e : R)
  : io unit :=
  if verbose then
    if (print_skip =? 0)%Z then io_lift (Raise ZeroDivisionError)
    else if (it mod print_skip =? 0)%Z then print (MsgError it e)
         else io_ret tt
  else io_ret tt.

Lemma loop_print_ok verbose print_skip it e :
  (verbose = true -> print_skip <> 0%Z) ->
  exists out, loop_print verbose print_skip it e = (out, Ok tt)
              /\ ~ In MsgFailed out.
Proof.
  intros H. unfold loop_print. destruct verbose.
  - destruct (Z.eqb_spec print_skip 0) as [E|_]; [now apply H in E|].
    destruct (it mod print_skip =? 0)%Z.
    + eexists; split; [reflexivity|]. intros [X|[]]; discriminate.
    + eexists; split; [reflexivity|]. intros [].
  - eexists; split; [reflexivity|]. intros [].
Qed.

Lemma solve_loop_S verbose print_skip left s :
  solve_loop minimize empty_like og tol verbose print_skip (S left) s =
  if Rgtb (error s) tol then
    r <~ io_lift (T minimize empty_like (cur_v s) og) ;;
    e <~ io_lift (sup_norm og (cur_v s) (snd r)) ;;
    loop_print verbose print_skip (iter s) e ;;;
    solve_loop minimize empty_like og tol verbose print_skip left
      {| cur_v := snd r; iter := (iter s + 1)%Z; error := e;
         last_sweep := Some (fst r, snd r) |}
  else io_ret s.
Proof.
  simpl. destruct (Rgtb (error s) tol); [|reflexivity].
  destruct (T minimize empty_like (cur_v s) og) as [[vg vn]|x]; reflexivity.
Qed.

Hypothesis T_total : forall v, exists r, T minimize empty_like v og = Ok r.
Hypothesis grid_nonempty : traversal og <> [].

Lemma sup_norm_total v v' : exists e, sup_norm og v v' = Ok e.
Proof.
  unfold sup_norm. destruct (traversal og) as [|c cs] eqn:E.
  - contradiction.
  - simpl. eexists; reflexivity.
Qed.

(** The loop, entered with iterations left and an error above the
    tolerance: it runs [k >= 1] sweeps and stops at the first whose
    sup-norm change is at most [tol], or when no iteration is left. *)
Lemma solve_loop_runs verbose print_skip :
  (verbose = true -> print_skip <> 0%Z) ->
  forall left s,
    error s > tol ->
    exists k out s' r e,
      (1 <= k <= S left)%nat
      /\ solve_loop minimize empty_like og tol verbose print_skip (S left) s
         = (out, Ok s')
      /\ Sweeps (cur_v s) k r e
      /\ last_sweep s' = Some r
      /\ error s' = e
      /\ iter s' = (iter s + Z.of_nat k)%Z
      /\ (e <= tol \/ k = S left)
      /\ ((k < S left)%nat -> e <= tol)
      /\ ~ In MsgFailed out.
Proof.
  intros Hps. induction left as [|left IH]; intros s Hs.
  - rewrite solve_loop_S. apply Rgtb_true in Hs. rewrite Hs.
    destruct (T_total (cur_v s)) as [r Hr]. rewrite Hr, io_bind_lift_ok.
    destruct (sup_norm_total (cur_v s) (snd r)) as [e He].
    rewrite He, io_bind_lift_ok.
    destruct (loop_print_ok verbose print_skip (iter s) e Hps)
      as (o & Ho & Hno).
    rewrite Ho, io_bind_ok. simpl. rewrite app_nil_r.
    exists 1%nat, o, {| cur_v := snd r; iter := (iter s + 1)%Z; error := e;
                        last_sweep := Some (fst r, snd r) |}, r, e.
    simpl. repeat split; auto; try lia.
    + constructor; assumption.
    + now destruct r.
  - rewrite solve_loop_S. pose proof Hs as Hs'.
    apply Rgtb_true in Hs. rewrite Hs.
    destruct (T_total (cur_v s)) as [r Hr]. rewrite Hr, io_bind_lift_ok.
    destruct (sup_norm_total (cur_v s) (snd r)) as [e He].
    rewrite He, io_bind_lift_ok.
    destruct (loop_print_ok verbose print_skip (iter s) e Hps)
      as (o & Ho & Hno).
    rewrite Ho, io_bind_ok.
    set (s1 := {| cur_v := snd r; iter := (iter s + 1)%Z; error := e;
                  last_sweep := Some (fst r, snd r) |}).
    destruct (Rgt_dec e tol) as [Hgt|Hle].
    + destruct (IH s1 Hgt) as (k & out & s' & r' & e' & Hk & Hl & Hsw & Hls
                               & He' & Hit & Hstop & Hearly & Hnf).
      exists (S k), (o ++ out), s', r', e'.
      rewrite Hl. simpl fst. simpl snd.
      repeat split; auto; try lia.
      * eapply Sweeps_next; eauto.
      * rewrite Hit. simpl iter. lia.
      * destruct Hstop as [? | ->]; auto.
      * intros X. apply Hearly. lia.
      * intros X. apply in_app_or in X. tauto.
    + exists 1%nat, o, s1, r, e.
      rewrite solve_loop_S.
      assert (Hf : Rgtb (error s1) tol = false)
        by (apply Rgtb_false; simpl; lra).
      rewrite Hf. simpl. rewrite app_nil_r.
      repeat split; auto; try lia; try lra.
      * constructor; assumption.
      * now destruct r.
Qed.

End Iteration.

(** A budget of one iteration: one sweep, whose result is returned
    whatever the tolerance, after the line "Failed to converge!". *)
Lemma solve_model_budget_one minimize el og v0 tol verbose print_skip r e :
  T minimize el v0 og = Ok r ->
  sup_norm og v0 (snd r) = Ok e ->
  print_skip <> 0%Z ->
  solve_model minimize el og v0 1 tol verbose print_skip =
  ((if verbose then [MsgError 0 e] else []) ++ [MsgError 1 e; MsgFailed],
   Ok r).
Proof.
  intros HT He Hps. unfold solve_model.
  change (Z.to_nat 1) with 1%nat. rewrite solve_loop_S.
  cbn [error cur_v iter].
  assert (Hgt : Rgtb (tol + 1) tol = true) by (apply Rgtb_true; lra).
  rewrite Hgt, HT, io_bind_lift_ok, He, io_bind_lift_ok.
  unfold loop_print.
  destruct (Z.eqb_spec print_skip 0) as [E|_]; [contradiction|].
  rewrite Z.mod_0_l by exact Hps. cbn [Z.eqb].
  destruct r as [vg vn]. destruct verbose; reflexivity.
Qed.

(** C4 (amended). On a non-empty grid, when every sweep returns and
    [print_skip] is not 0 under [verbose], and for a tolerance below
    [2^53] in absolute value (where [tol + 1 > tol] also holds for
    doubles, so that the loop is entered), a budget of [n >= 1]
    iterations makes the loop stop after the first sweep [k] whose
    sup-norm change is at most the tolerance, or after sweep [n],
    whichever comes first, and [solve_model] returns the policy and
    value arrays of that last sweep and nothing else.  The outcome is
    only printed: "Failed to converge!" appears when the budget ran out
    with the tolerance unmet, and it does not appear when a sweep before
    the last of the budget met the tolerance, in which case a verbose
    run prints "Converged in k iterations.". *)
Theorem solve_model_stops minimize el og v0 (n : nat) tol verbose print_skip :
  (1 <= n)%nat ->
  Rabs tol < 9007199254740992 ->
  traversal og <> [] ->
  (verbose = true -> print_skip <> 0%Z) ->
  (forall v, exists r, T minimize el v og = Ok r) ->
  exists k out r e,
    (1 <= k <= n)%nat
    /\ solve_model minimize el og v0 (Z.of_nat n) tol verbose print_skip
       = (out, Ok r)
    /\ Sweeps minimize el og tol v0 k r e
    /\ (e <= tol \/ k = n)
    /\ ((k < n)%nat -> e <= tol)
    /\ (e > tol -> In MsgFailed out)
    /\ ((k < n)%nat ->
        ~ In MsgFailed out
        /\ (verbose = true -> In (MsgConverged (Z.of_nat k)) out)).
Proof.
  intros Hn _ Hne Hps Htot.
  destruct n as [|left]; [lia|].
  set (s0 := {| cur_v := v0; iter := 0%Z; error := tol + 1;
                last_sweep := None |}).
  destruct (solve_loop_runs minimize el og tol Htot Hne verbose print_skip
              Hps left s0)
    as (k & out & s' & r & e & Hk & Hl & Hsw & Hls & He & Hit & Hstop
        & Hearly & Hnf).
  { simpl. lra. }
  unfold solve_model. fold s0. rewrite Nat2Z.id, Hl.
  simpl in Hit.
  exists k.
  destruct (Z.eqb_spec (iter s') (Z.of_nat (S left))) as [E|E].
  - assert (k = S left) by lia. subst k.
    assert (Hlt : (iter s' <? Z.of_nat (S left))%Z = false)
      by (apply Z.ltb_ge; lia).
    exists (out ++ [MsgError (iter s') (error s'); MsgFailed]), r, e.
    split; [exact Hk|]. split; [|split; [exact Hsw|]].
    + rewrite io_bind_ok. cbn [fst snd].
      destruct (Z.eqb_spec (iter s') (Z.of_nat (S left))); [|contradiction].
      rewrite Hlt, andb_false_r, Hls. simpl. rewrite ?app_nil_r. reflexivity.
    + split; [exact Hstop|]. split; [exact Hearly|]. split.
      * intros _. apply in_or_app. right. simpl. auto.
      * intros X. lia.
  - assert (Hk' : (k < S left)%nat) by lia.
    assert (Hlt : (iter s' <? Z.of_nat (S left))%Z = true)
      by (apply Z.ltb_lt; lia).
    exists (out ++ (if verbose then [MsgConverged (iter s')] else [])), r, e.
    split; [exact Hk|]. split; [|split; [exact Hsw|]].
    + rewrite io_bind_ok. cbn [fst snd].
      destruct (Z.eqb_spec (iter s') (Z.of_nat (S left))); [contradiction|].
      rewrite Hlt, andb_true_r, Hls. destruct verbose; simpl;
        rewrite ?app_nil_r; reflexivity.
    + split; [exact Hstop|]. split; [exact Hearly|]. split.
      * intros Hgt. specialize (Hearly Hk'). lra.
      * intros _. split.
        -- intros X. apply in_app_or in X. destruct X as [X|X]; [tauto|].
           destruct verbose; simpl in X;
             [destruct X as [X|[]]; discriminate|tauto].
        -- intros ->. apply in_or_app. right. rewrite Hit. left. reflexivity.
Qed.

(** No iteration left at the start: no sweep, and the return statement
    reads an unbound name. *)
Lemma solve_model_no_budget minimize el og v0 (max_iter : Z) tol verbose
    print_skip :
  (max_iter <= 0)%Z ->
  solve_model minimize el og v0 max_iter tol verbose print_skip
  = ((if (max_iter =? 0)%Z then [MsgError 0 (tol + 1); MsgFailed] else []),
     Raise UnboundLocalError).
Proof.
  intros Hmax. unfold solve_model.
  assert (E : Z.to_nat max_iter = 0%nat) by lia. rewrite E.
  simpl solve_loop. unfold io_ret. rewrite io_bind_ok. cbn [fst snd iter].
  destruct (Z.eqb_spec 0 max_iter) as [E0|E0].
  - subst max_iter. simpl. rewrite andb_false_r. reflexivity.
  - assert (Hlt : (0 <? max_iter)%Z = false) by (apply Z.ltb_ge; lia).
    rewrite Hlt, andb_false_r.
    destruct (Z.eqb_spec max_iter 0) as [E1|_]; [lia|]. reflexivity.
Qed.

(** The constructor fails exactly on a negative grid size, inside
    [np.linspace]. *)
Lemma Model_new_cases u0 f0 (grid_size : Z) :
  Model_new u0 f0 grid_size =
    if (grid_size <? 0)%Z then Raise ValueError
    else Ok (Model_init u0 f0 (Z.to_nat grid_size)).
Proof.
  unfold Model_new, np_linspace. now destruct (grid_size <? 0)%Z.
Qed.

(** C8 (amended). No configuration is validated by the notebook's own
    code.  The constructor has no check: it fails only where
    [np.linspace] does, on a negative grid size, and it builds a model
    with axes of the requested length for every other size, 0 and 1
    included; [solve_model] takes every tolerance (with a budget of one
    iteration it returns the first sweep whatever the tolerance, below
    [2^53] in absolute value, where [tol + 1 > tol] also holds for
    doubles); and a
    non-positive iteration budget is not rejected either: no sweep runs
    and [solve_model] fails at its return statement, where [v_greedy] is
    unbound. *)
Theorem configuration_not_validated minimize el u0 f0 (grid_size : Z)
    og v0 (max_iter : Z) tol verbose print_skip :
  (max_iter <= 0)%Z ->
  ((grid_size < 0)%Z -> Model_new u0 f0 grid_size = Raise ValueError)
  /\ ((0 <= grid_size)%Z ->
      exists m, Model_new u0 f0 grid_size = Ok m
                /\ length (gridS m) = Z.to_nat grid_size
                /\ length (gridI m) = Z.to_nat grid_size)
  /\ solve_model minimize el og v0 max_iter tol verbose print_skip
     = ((if (max_iter =? 0)%Z then [MsgError 0 (tol + 1); MsgFailed] else []),
        Raise UnboundLocalError)
  /\ (forall tol' r e,
        Rabs tol' < 9007199254740992 ->
        T minimize el v0 og = Ok r ->
        sup_norm og v0 (snd r) = Ok e ->
        snd (solve_model minimize el og v0 1 tol' false 5) = Ok r).
Proof.
  intros Hmax. split; [|split; [|split]].
  - intros Hneg. rewrite Model_new_cases.
    assert (E : (grid_size <? 0)%Z = true) by (apply Z.ltb_lt; exact Hneg).
    now rewrite E.
  - intros Hpos. rewrite Model_new_cases.
    assert (E : (grid_size <? 0)%Z = false) by (apply Z.ltb_ge; exact Hpos).
    rewrite E. eexists. split; [reflexivity|].
    cbn [gridS gridI Model_init]. now rewrite !linspace_length.
  - apply solve_model_no_budget; assumption.
  - intros tol' r e _ HT He.
    rewrite (solve_model_budget_one _ _ _ _ _ _ _ _ _ HT He); [reflexivity|lia].
Qed.

(* ================================================================== *)
(** ** Concrete models *)

(** A one-point grid, the 2-point grid, and the notebook's [N = 15]. *)
Definition og1 : Model := Model_init cost dynamics 1.
Definition og2 : Model := Model_init cost dynamics 2.
Definition og15 : Model := Model_init cost dynamics 15.

Ltac grid_arith :=
  unfold within_bound, sum_axis0, sum_all, vsum, vadd, vzip, P,
    herd_threshold; simpl; lra.

Lemma og1_traversal : traversal og1 = [origin].
Proof. reflexivity. Qed.

Lemma og1_origin_postherd : classify og1 origin = PostHerd.
Proof. apply classify_postherd. split; grid_arith. Qed.

Lemma og2_traversal :
  traversal og2 =
  [ (0,0,0,0); (0,0,0,1); (0,0,1,0); (0,0,1,1);
    (0,1,0,0); (0,1,0,1); (0,1,1,0); (0,1,1,1);
    (1,0,0,0); (1,0,0,1); (1,0,1,0); (1,0,1,1);
    (1,1,0,0); (1,1,0,1); (1,1,1,0); (1,1,1,1) ]%nat.
Proof. reflexivity. Qed.

Lemma og2_origin_postherd : classify og2 origin = PostHerd.
Proof. apply classify_postherd. split; grid_arith. Qed.

Lemma og2_0001_exterior : classify og2 (0, 0, 0, 1)%nat = Exterior.
Proof. apply classify_exterior. grid_arith. Qed.

Lemma og2_0010_interior : classify og2 (0, 0, 1, 0)%nat = Interior.
Proof. apply classify_interior. split; grid_arith. Qed.

Lemma og2_0011_exterior : classify og2 (0, 0, 1, 1)%nat = Exterior.
Proof. apply classify_exterior. grid_arith. Qed.

Lemma og15_origin_postherd : classify og15 origin = PostHerd.
Proof. apply classify_postherd. split; grid_arith. Qed.

Lemma og15_origin_visited : In origin (traversal og15).
Proof.
  apply traversal_In. unfold og15. cbn [gridS gridI Model_init].
  rewrite !linspace_length. lia.
Qed.

Lemma T_first_iterate_total el v n :
  (2 <= n)%nat ->
  exists r, T first_iterate el v (Model_init cost dynamics n) = Ok r.
Proof.
  intros Hn. destruct (T_sweep_first_iterate el v n Hn) as [st Hst].
  exists (v_greedy st, v_new st). apply T_of_sweep. eauto.
Qed.

Lemma og2_tracked_at_0011 :
  tracked_after og2 [origin; (0, 0, 0, 1); (0, 0, 1, 0)]%nat origin
  = (0, 0, 1, 0)%nat.
Proof.
  unfold tracked_after, is_interior. simpl.
  rewrite og2_origin_postherd, og2_0001_exterior, og2_0010_interior.
  reflexivity.
Qed.

(* ================================================================== *)
(** ** Instances *)

(** On the 2-point grid the exterior cell [0,0,1,1] follows the optimised
    corner [0,0,1,0] and holds that corner's value and policy. *)
Lemma T_exterior_copies_tracked_witness :
  exists vg vn,
    T first_iterate (fun v => v) zeros_v og2 = Ok (vg, vn)
    /\ traversal og2 =
         [origin; (0, 0, 0, 1); (0, 0, 1, 0)]%nat ++ (0, 0, 1, 1)%nat ::
         [ (0,1,0,0); (0,1,0,1); (0,1,1,0); (0,1,1,1);
           (1,0,0,0); (1,0,0,1); (1,0,1,0); (1,0,1,1);
           (1,1,0,0); (1,1,0,1); (1,1,1,0); (1,1,1,1) ]%nat
    /\ ~ within_bound (bellman_at og2 (0, 0, 1, 1)%nat)
    /\ vn (0, 0, 1, 1)%nat = vn (0, 0, 1, 0)%nat
    /\ vg (0, 0, 1, 1)%nat = vg (0, 0, 1, 0)%nat.
Proof.
  destruct (T_first_iterate_total (fun v => v) zeros_v 2 (le_n 2))
    as [[vg vn] HT].
  exists vg, vn.
  assert (Hb : ~ within_bound (bellman_at og2 (0, 0, 1, 1)%nat))
    by (apply classify_exterior, og2_0011_exterior).
  pose proof (T_exterior_copies_tracked first_iterate (fun v => v) zeros_v
                og2 vg vn [origin; (0, 0, 0, 1); (0, 0, 1, 0)]%nat
                (0, 0, 1, 1)%nat
                [ (0,1,0,0); (0,1,0,1); (0,1,1,0); (0,1,1,1);
                  (1,0,0,0); (1,0,0,1); (1,0,1,0); (1,0,1,1);
                  (1,1,0,0); (1,1,0,1); (1,1,1,0); (1,1,1,1) ]%nat
                HT og2_traversal Hb) as H.
  cbv zeta in H. rewrite og2_tracked_at_0011 in H.
  destruct H as (Hv & Hg & _).
  split; [exact HT|]. split; [exact og2_traversal|].
  split; [exact Hb|]. split; assumption.
Defined.

(** On the 2-point grid the cell [0,0,0,0] is post-herd. *)
Lemma T_post_herd_zero_witness :
  exists st,
    T_sweep first_iterate (fun v => v) zeros_v og2 = Ok st
    /\ In origin (traversal og2)
    /\ within_bound (bellman_at og2 origin)
    /\ sum_all (bellman_at og2 origin) < 1 - herd_threshold
    /\ v_new st origin = 0
    /\ v_greedy st origin = bc 0
    /\ ~ In origin (invoked st).
Proof.
  destruct (T_sweep_first_iterate (fun v => v) zeros_v 2 (le_n 2))
    as [st Hst].
  exists st.
  assert (Hin : In origin (traversal og2)) by (left; reflexivity).
  assert (Hc : within_bound (bellman_at og2 origin)
               /\ sum_all (bellman_at og2 origin) < 1 - herd_threshold)
    by (apply classify_postherd, og2_origin_postherd).
  destruct Hc as [Hb Hm].
  destruct (T_post_herd_zero first_iterate (fun v => v) zeros_v og2 st origin
              Hst Hin Hb Hm) as (_ & Hv & Hg & Hi).
  exact (conj Hst (conj Hin (conj Hb (conj Hm (conj Hv (conj Hg Hi)))))).
Defined.

(** C1 as the specification states it: every exterior cell holds the value and
    policy of the last optimised cell before it in traversal order. *)
Definition exterior_copies_last_optimised
    (minimize : (vec2 -> result R) -> vec2 -> bounds -> result (vec2 * R))
    (el : varray -> varray) (v : varray) (og : Model) : Prop :=
  forall vg vn pre c post,
    T minimize el v og = Ok (vg, vn) ->
    traversal og = pre ++ c :: post ->
    ~ within_bound (bellman_at og c) ->
    exists pre1 t pre2,
      pre = pre1 ++ t :: pre2
      /\ classify og t = Interior
      /\ (forall x, In x pre2 -> classify og x <> Interior)
      /\ vn c = vn t /\ vg c = vg t.

(** On the 2-point grid the exterior cell [0,0,0,1] is visited before
    any cell has been optimised: the only cell before it, [0,0,0,0], is
    post-herd, and the exterior cell takes that cell's zero value and
    zero policy. *)
Lemma exterior_before_any_optimised :
  traversal og2 =
    [origin] ++ (0, 0, 0, 1)%nat ::
    [ (0,0,1,0); (0,0,1,1);
      (0,1,0,0); (0,1,0,1); (0,1,1,0); (0,1,1,1);
      (1,0,0,0); (1,0,0,1); (1,0,1,0); (1,0,1,1);
      (1,1,0,0); (1,1,0,1); (1,1,1,0); (1,1,1,1) ]%nat
  /\ classify og2 origin = PostHerd
  /\ classify og2 (0, 0, 0, 1)%nat = Exterior
  /\ (exists vg vn,
        T first_iterate (fun v => v) zeros_v og2 = Ok (vg, vn)
        /\ vn (0, 0, 0, 1)%nat = 0 /\ vg (0, 0, 0, 1)%nat = bc 0)
  /\ ~ exterior_copies_last_optimised first_iterate (fun v => v) zeros_v og2.
Proof.
  split; [exact og2_traversal|].
  split; [exact og2_origin_postherd|].
  split; [exact og2_0001_exterior|].
  destruct (T_sweep_first_iterate (fun v => v) zeros_v 2 (le_n 2))
    as [st Hst].
  assert (HT : T first_iterate (fun v => v) zeros_v og2
               = Ok (v_greedy st, v_new st)) by (apply T_of_sweep; eauto).
  assert (Hb : ~ within_bound (bellman_at og2 (0, 0, 0, 1)%nat))
    by (apply classify_exterior, og2_0001_exterior).
  split.
  - exists (v_greedy st), (v_new st). split; [exact HT|].
    pose proof (sweep_exterior first_iterate (fun v => v) zeros_v og2 _ _
                  [origin] (0, 0, 0, 1)%nat _ HT og2_traversal Hb) as H.
    cbv zeta in H.
    assert (Et : tracked_after og2 [origin] origin = origin).
    { unfold tracked_after, is_interior. simpl.
      now rewrite og2_origin_postherd. }
    rewrite Et in H. destruct H as (Hv & Hg & _).
    assert (Hp : within_bound (bellman_at og2 origin)
                 /\ sum_all (bellman_at og2 origin) < 1 - herd_threshold)
      by (apply classify_postherd, og2_origin_postherd).
    destruct (sweep_post_herd first_iterate (fun v => v) zeros_v og2 st
                origin Hst (or_introl eq_refl) (proj1 Hp) (proj2 Hp))
      as (_ & Hv0 & Hg0 & _).
    split; congruence.
  - intros Hclaim.
    destruct (Hclaim _ _ [origin] (0, 0, 0, 1)%nat _ HT og2_traversal Hb)
      as (p1 & t & p2 & E & Ht & _).
    destruct p1 as [|a p1]; simpl in E.
    + injection E as <- _. rewrite og2_origin_postherd in Ht. discriminate.
    + injection E as _ E. destruct p1; discriminate.
Qed.

(** The objective at the optimised corner of the 2-point grid, against
    the value array that is 1 at the first cell and 0 elsewhere, and the
    interpolant of that array at the centre of the grid's single cell. *)
Lemma T_minimises_objective_witness :
  within_bound (bellman_at og2 (0, 0, 1, 0)%nat)
  /\ sum_all (bellman_at og2 (0, 0, 1, 0)%nat) >= 1 - herd_threshold
  /\ T_body first_iterate (upd zeros_v origin 1) og2 T_bds
            (T_init (fun v => v) zeros_v) (0, 0, 1, 0)%nat =
       ('(c_star, v_max) <-
           first_iterate
             (fun x => obj_func og2 x (bellman_at og2 (0, 0, 1, 0)%nat)
                         (upd zeros_v origin 1))
             (0, 1) T_bds ;;
        Ok {| v_greedy := upd zeros_p (0, 0, 1, 0)%nat c_star;
              v_new := upd zeros_v (0, 0, 1, 0)%nat v_max;
              tracked := (0, 0, 1, 0)%nat;
              invoked := [(0, 0, 1, 0)%nat] |})
  /\ quadrilinear (gridS og2, gridS og2, gridI og2, gridI og2)
       (upd zeros_v origin 1) (0.5, 0.5, 0.25, 0.25)
     = multilinear (gridS og2, gridS og2, gridI og2, gridI og2)
         (upd zeros_v origin 1) origin (0.5, 0.5, 0.25, 0.25).
Proof.
  assert (H : within_bound (bellman_at og2 (0, 0, 1, 0)%nat)
              /\ sum_all (bellman_at og2 (0, 0, 1, 0)%nat)
                 >= 1 - herd_threshold)
    by (apply classify_interior, og2_0010_interior).
  destruct H as [Hb Hm].
  destruct (Model_init_increasing cost dynamics 2) as [GS GI].
  fold og2 in GS, GI.
  assert (CS : in_cell (gridS og2) 0 0.5)
    by (unfold in_cell, og2; simpl; split; [lia|lra]).
  assert (CI : in_cell (gridI og2) 0 0.25)
    by (unfold in_cell, og2; simpl; split; [lia|lra]).
  pose proof (T_minimises_objective first_iterate (upd zeros_v origin 1) og2
                (T_init (fun v => v) zeros_v) (0, 0, 1, 0)%nat (0.5, 0.5)
                Hb Hm) as HT.
  cbv zeta in HT. destruct HT as (HT & _ & Hgrid).
  destruct (Hgrid GS GI) as [Hcell _].
  exact (conj Hb (conj Hm (conj HT
           (Hcell 0%nat 0%nat 0%nat 0%nat 0.5 0.5 0.25 0.25
              CS CS CI CI)))).
Defined.

(** The start of the search at the optimised corner of the 2-point
    grid, with the optimizer that stops at its projected start. *)
Lemma T_initial_guess_witness :
  starts_from_projection first_iterate
  /\ within_bound (bellman_at og2 (0, 0, 1, 0)%nat)
  /\ sum_all (bellman_at og2 (0, 0, 1, 0)%nat) >= 1 - herd_threshold
  /\ T_body first_iterate zeros_v og2 T_bds (T_init (fun v => v) zeros_v)
            (0, 0, 1, 0)%nat =
       ('(c_star, v_max) <-
           first_iterate (cell_objective zeros_v og2 (0, 0, 1, 0)%nat)
             (fst (fst T_bds), snd (snd T_bds)) T_bds ;;
        Ok {| v_greedy := upd zeros_p (0, 0, 1, 0)%nat c_star;
              v_new := upd zeros_v (0, 0, 1, 0)%nat v_max;
              tracked := (0, 0, 1, 0)%nat;
              invoked := [(0, 0, 1, 0)%nat] |})
  /\ in_box T_bds (fst (fst T_bds), snd (snd T_bds)).
Proof.
  assert (H : within_bound (bellman_at og2 (0, 0, 1, 0)%nat)
              /\ sum_all (bellman_at og2 (0, 0, 1, 0)%nat)
                 >= 1 - herd_threshold)
    by (apply classify_interior, og2_0010_interior).
  destruct H as [Hb Hm].
  pose proof first_iterate_starts_from_projection as Hp.
  pose proof (T_initial_guess first_iterate zeros_v og2
                (T_init (fun v => v) zeros_v) (0, 0, 1, 0)%nat Hp Hb Hm) as HT.
  cbv zeta in HT. destruct HT as (HT & _ & Hbox & _).
  exact (conj Hp (conj Hb (conj Hm (conj HT Hbox)))).
Defined.

(** After a sweep of the 2-point grid the optimised corner holds a
    policy within the box. *)
Lemma T_policy_box_witness :
  exists st,
    respects_bounds first_iterate T_bds
    /\ T_sweep first_iterate (fun v => v) zeros_v og2 = Ok st
    /\ In (0, 0, 1, 0)%nat (traversal og2)
    /\ within_bound (bellman_at og2 (0, 0, 1, 0)%nat)
    /\ sum_all (bellman_at og2 (0, 0, 1, 0)%nat) >= 1 - herd_threshold
    /\ in_box T_bds (v_greedy st (0, 0, 1, 0)%nat).
Proof.
  destruct (T_sweep_first_iterate (fun v => v) zeros_v 2 (le_n 2))
    as [st Hst].
  exists st.
  assert (Hr : respects_bounds first_iterate T_bds)
    by (apply first_iterate_respects_bounds; apply T_bds_ordered).
  assert (Hin : In (0, 0, 1, 0)%nat (traversal og2))
    by (right; right; left; reflexivity).
  assert (H : within_bound (bellman_at og2 (0, 0, 1, 0)%nat)
              /\ sum_all (bellman_at og2 (0, 0, 1, 0)%nat)
                 >= 1 - herd_threshold)
    by (apply classify_interior, og2_0010_interior).
  destruct H as [Hb Hm].
  exact (conj Hr (conj Hst (conj Hin (conj Hb (conj Hm
           (proj1 (T_policy_box first_iterate (fun v => v) zeros_v og2 st
                     (0, 0, 1, 0)%nat Hr Hst Hin Hb) Hm)))))).
Defined.

(** C6 as the specification states it fails at the first cell of the notebook's
    own grid: [0,0,0,0] satisfies the population bound, and after a sweep
    with an optimizer that keeps to its box it holds the policy [(0, 0)],
    below the lower bound [1e-4]. *)
Lemma post_herd_policy_outside_box :
  In origin (traversal og15)
  /\ within_bound (bellman_at og15 origin)
  /\ respects_bounds first_iterate T_bds
  /\ exists st,
       T_sweep first_iterate (fun v => v) zeros_v og15 = Ok st
       /\ v_greedy st origin = (0, 0)
       /\ ~ in_box T_bds (v_greedy st origin).
Proof.
  assert (Hp : within_bound (bellman_at og15 origin)
               /\ sum_all (bellman_at og15 origin) < 1 - herd_threshold)
    by (apply classify_postherd, og15_origin_postherd).
  destruct Hp as [Hb Hm].
  split; [exact og15_origin_visited|]. split; [exact Hb|].
  split; [apply first_iterate_respects_bounds; apply T_bds_ordered|].
  assert (H15 : (2 <= 15)%nat) by lia.
  destruct (T_sweep_first_iterate (fun v => v) zeros_v 15 H15) as [st Hst].
  exists st. split; [exact Hst|].
  destruct (sweep_post_herd first_iterate (fun v => v) zeros_v og15 st
              origin Hst og15_origin_visited Hb Hm) as (_ & _ & Hg & _).
  split; [exact Hg|]. rewrite Hg.
  unfold in_box, T_bds, bc. cbv [fst snd]. intros [[H _] _]. lra.
Qed.

(** The transition at an interior state under a half lockdown. *)
Lemma dynamics_query_in_domain_witness :
  (2 <= 15)%nat
  /\ (0 <= 0.5 <= 1 /\ 0 <= 0.1 <= 1)
  /\ (0 <= 0.01 <= 0.5)
  /\ (let '(S_new, I_new, R_new, D_new) :=
        dynamics (0.5, 0.5) ((0.5, 0.1), (0.01, 0.01)) in
      in_domain (gridS og15, gridS og15, gridI og15, gridI og15)
                (concatenate S_new I_new) = true)
  /\ exists r,
       obj_func og15 (0.5, 0.5) ((0.5, 0.1), (0.01, 0.01)) zeros_v = Ok r.
Proof.
  assert (H15 : (2 <= 15)%nat) by lia.
  assert (HS : 0 <= 0.5 <= 1 /\ 0 <= 0.1 <= 1) by lra.
  assert (HI : 0 <= 0.01 <= 0.5) by lra.
  pose proof (dynamics_query_in_domain (0.5, 0.5)
                ((0.5, 0.1), (0.01, 0.01)) 15 zeros_v H15
                (conj (proj1 HS) (proj1 HS)) HS (conj HI HI)) as H.
  cbv zeta in H. fold og15 in H. destruct H as (Hq & Hr & _).
  split; [exact H15|]. split; [exact HS|]. split; [exact HI|].
  split; [|exact Hr].
  destruct (dynamics (0.5, 0.5) ((0.5, 0.1), (0.01, 0.01)))
    as [[[s0 i0] r0] d0].
  exact (proj2 (proj2 Hq)).
Defined.

(** The cost of a half lockdown at an interior state. *)
Lemma cost_nonneg_witness :
  in_box T_bds (0.5, 0.5)
  /\ within_bound ((0.5, 0.1), (0.01, 0.01))
  /\ 0 <= cost (0.5, 0.5) ((0.5, 0.1), (0.01, 0.01)).
Proof.
  assert (HL : in_box T_bds (0.5, 0.5))
    by (unfold in_box, T_bds, L_max; cbv [fst snd]; repeat split; lra).
  assert (HB : within_bound ((0.5, 0.1), (0.01, 0.01)))
    by (split; grid_arith).
  split; [exact HL|]. split; [exact HB|].
  refine (proj1 (cost_nonneg (0.5, 0.5) ((0.5, 0.1), (0.01, 0.01))
                   HL _ _ _ _ HB)); cbv [fst snd]; lra.
Defined.

(** C10 as the specification states it: for every control and state the
    cost is the sum of the four terms. *)
Definition cost_is_four_term_sum : Prop :=
  forall (L : vec2) (st : state),
    cost L st =
      lost_salary L st + covid_deaths st + non_covid_deaths L st
      + future_unemployment L st.

(** With nobody infected the cost is 0 by its first branch, while a half
    lockdown of the susceptible still loses more than 0.2 in salary and
    the other three terms are not negative. *)
Lemma cost_zero_without_infection :
  cost (0.5, 0.5) ((0.5, 0.1), (0, 0)) = 0
  /\ 0.2 < lost_salary (0.5, 0.5) ((0.5, 0.1), (0, 0))
           + covid_deaths ((0.5, 0.1), (0, 0))
           + non_covid_deaths (0.5, 0.5) ((0.5, 0.1), (0, 0))
           + future_unemployment (0.5, 0.5) ((0.5, 0.1), (0, 0))
  /\ ~ cost_is_four_term_sum.
Proof.
  assert (Hc : cost (0.5, 0.5) ((0.5, 0.1), (0, 0)) = 0).
  { apply cost_zero_mass. unfold vsum. cbv [fst snd]. lra. }
  assert (Hs : 0.2 < lost_salary (0.5, 0.5) ((0.5, 0.1), (0, 0))
                     + covid_deaths ((0.5, 0.1), (0, 0))
                     + non_covid_deaths (0.5, 0.5) ((0.5, 0.1), (0, 0))
                     + future_unemployment (0.5, 0.5) ((0.5, 0.1), (0, 0))).
  { pose proof career_value_pos as HK. pose proof ir_pos as Hir.
    unfold lost_salary, covid_deaths, non_covid_deaths, future_unemployment,
      empl, indir, phi, chi, w, career, p, P, F, wfh, alpha_L, alpha_E,
      gamma, vexp, vmap, vadd, vsub, vmul, vdiv, vzip, vsum, bc.
    cbv [fst snd].
    replace (- ir * 0) with 0 by ring. rewrite exp_0.
    fold career_value.
    replace (1 / ir * (1 - exp (- ir * (20 * 365)))) with career_value
      by (unfold career_value; field; lra).
    nra. }
  split; [exact Hc|]. split; [exact Hs|].
  intros Hclaim.
  specialize (Hclaim (0.5, 0.5) ((0.5, 0.1), (0, 0))).
  rewrite Hc in Hclaim. lra.
Qed.

(** The ICU penalty that the cost drops is positive at an infection
    share of 10% in each group. *)
Lemma ICU_positive : 0 < ICU (0.1, 0.1).
Proof.
  unfold ICU, vsum, vmul, vzip, iota, ICU_max, eta. cbv [fst snd].
  eapply Rlt_le_trans; [|apply Rmax_r]. lra.
Qed.

(** On a one-point grid the sweep visits a single post-herd cell: it
    never calls the optimizer. *)
Lemma og1_T minimize el v :
  T minimize el v og1 =
  Ok (upd zeros_p origin (bc 0), upd (el v) origin 0).
Proof.
  unfold T, T_sweep. rewrite og1_traversal. simpl T_loop.
  rewrite (T_body_postherd _ _ _ _ _ _ og1_origin_postherd). reflexivity.
Qed.

Lemma og1_sup_norm v v' :
  sup_norm og1 v v' = Ok (Rabs (v origin - v' origin)).
Proof. unfold sup_norm. rewrite og1_traversal. reflexivity. Qed.

(** Two sweeps of the 2-point grid under a tolerance of 1e-3. *)
Lemma solve_model_stops_witness :
  (1 <= 2)%nat
  /\ Rabs 1e-3 < 9007199254740992
  /\ traversal og2 <> []
  /\ (forall v, exists r, T first_iterate (fun a => a) v og2 = Ok r)
  /\ exists k out r e,
       (1 <= k <= 2)%nat
       /\ solve_model first_iterate (fun a => a) og2 zeros_v 2 1e-3 true 5
          = (out, Ok r)
       /\ Sweeps first_iterate (fun a => a) og2 1e-3 zeros_v k r e
       /\ (e <= 1e-3 \/ k = 2%nat)
       /\ (e > 1e-3 -> In MsgFailed out).
Proof.
  assert (H1 : (1 <= 2)%nat) by lia.
  assert (Hne : traversal og2 <> []) by (rewrite og2_traversal; discriminate).
  assert (Htot : forall v, exists r, T first_iterate (fun a => a) v og2 = Ok r)
    by (intros v; apply T_first_iterate_total; lia).
  assert (Hps : true = true -> 5%Z <> 0%Z) by (intros _; discriminate).
  assert (Htol : Rabs 1e-3 < 9007199254740992)
    by (rewrite Rabs_right; lra).
  split; [exact H1|]. split; [exact Htol|].
  split; [exact Hne|]. split; [exact Htot|].
  destruct (solve_model_stops first_iterate (fun a => a) og2 zeros_v 2 1e-3
              true 5 H1 Htol Hne Hps Htot)
    as (k & out & r & e & Hk & Hrun & Hsw & Hstop & _ & Hmsg & _).
  exists k, out, r, e.
  exact (conj Hk (conj Hrun (conj Hsw (conj Hstop Hmsg)))).
Defined.

(** A grid size of -3, and a budget of zero iterations on the
    notebook's grid. *)
Lemma configuration_not_validated_witness :
  (0 <= 0)%Z
  /\ Model_new cost dynamics (-3) = Raise ValueError
  /\ solve_model first_iterate (fun a => a) og15 zeros_v 0 1e-3 true 5
     = ([MsgError 0 (1e-3 + 1); MsgFailed], Raise UnboundLocalError).
Proof.
  assert (H0 : (0 <= 0)%Z) by lia.
  assert (H3 : (-3 < 0)%Z) by lia.
  destruct (configuration_not_validated first_iterate (fun a => a)
              cost dynamics (-3) og15 zeros_v 0 1e-3 true 5 H0)
    as (Hneg & _ & Hrun & _).
  exact (conj H0 (conj (Hneg H3) Hrun)).
Defined.

(** C8 as the specification states it fails on each kind of invalid
    configuration.  A grid of size 1 is constructed and solved, and a
    grid of size 0 is constructed; a negative tolerance is accepted on
    the notebook's grid; a budget of 0 is not rejected at construction
    but fails inside [solve_model]. *)
Lemma invalid_configurations_run :
  (Model_new cost dynamics 1 = Ok og1
   /\ exists out r,
        solve_model first_iterate (fun a => a) og1 zeros_v 1 1e-3 true 5
        = (out, Ok r))
  /\ Model_new cost dynamics 0 = Ok (Model_init cost dynamics 0)
  /\ (Model_new cost dynamics 15 = Ok og15
      /\ exists out r,
           solve_model first_iterate (fun a => a) og15 zeros_v 1 (-1) true 5
           = (out, Ok r))
  /\ solve_model first_iterate (fun a => a) og15 zeros_v 0 1e-3 true 5
     = ([MsgError 0 (1e-3 + 1); MsgFailed], Raise UnboundLocalError).
Proof.
  assert (Hps : 5%Z <> 0%Z) by discriminate.
  split; [|split; [|split]].
  - split; [reflexivity|].
    pose proof (og1_T first_iterate (fun a => a) zeros_v) as HT.
    pose proof (og1_sup_norm zeros_v
                  (snd (upd zeros_p origin (bc 0),
                        upd zeros_v origin 0))) as He.
    do 2 eexists.
    exact (solve_model_budget_one _ _ _ _ 1e-3 true 5%Z _ _ HT He Hps).
  - reflexivity.
  - split; [reflexivity|].
    assert (H15 : (2 <= 15)%nat) by lia.
    destruct (T_first_iterate_total (fun a => a) zeros_v 15 H15) as [r HT].
    assert (Hne : traversal og15 <> []).
    { intros E. pose proof og15_origin_visited as X. rewrite E in X.
      destruct X. }
    destruct (sup_norm_total og15 Hne zeros_v (snd r)) as [e He].
    do 2 eexists.
    exact (solve_model_budget_one _ _ _ _ (-1) true 5%Z _ _ HT He Hps).
  - apply solve_model_no_budget. lia.
Qed.

(* ================================================================== *)
(** ** Bounds on the swept values *)

Lemma career_value_le : career_value <= 20 * 365.
Proof.
  unfold career_value. pose proof ir_pos as Hir.
  pose proof (exp_ineq1_le (- ir * (20 * 365))) as H.
  apply Rmult_le_reg_r with ir; [exact Hir|].
  unfold Rdiv. rewrite Rmult_assoc, Rinv_l by lra. lra.
Qed.

(** With a positive infection mass the cost is at least the net salary
    loss of the young and at most 100. *)
Lemma cost_range (L : vec2) (st : state) :
  in_box T_bds L ->
  0 <= fst (fst st) -> 0 <= snd (fst st) ->
  0 <= fst (snd st) -> 0 <= snd (snd st) ->
  within_bound st ->
  vsum (snd st) <> 0 ->
  0.48 * fst L <= cost L st <= 100.
Proof.
  intros HL HS0 HS1 HI0 HI1 HB Hnz.
  rewrite (cost_closed_form L st Hnz).
  pose proof career_value_pos as HK. pose proof career_value_le as HK'.
  destruct L as [L0 L1], st as [[S0 S1] [I0 I1]].
  unfold in_box, T_bds, L_max, within_bound, sum_axis0, vadd, vzip, P in *.
  unfold vsum, wfh, gamma, alpha_L, alpha_E, F, P. cbv [fst snd] in *.
  destruct HL as [[HL0 HL0'] _]. destruct HB as [HB0 HB1].
  assert (HL0p : 0 <= L0) by lra.
  assert (HI0' : I0 <= 0.838) by lra.
  assert (HI1' : I1 <= 0.202) by lra.
  set (q := 0.000634 * (1 / 18) + 0.00845 * (1 / 18) * (I0 + I1)).
  assert (Hq : 0 <= q <= 0.001) by (unfold q; lra).
  assert (T2 : 0 <= 11 * career_value * q * I0 <= 11 * (20 * 365) * 0.001 * 0.838).
  { split.
    - apply Rmult_le_pos; [apply Rmult_le_pos|]; nra.
    - assert (A : career_value * q <= 20 * 365 * 0.001) by nra.
      assert (B : 0 <= career_value * q) by nra.
      nra. }
  assert (T3 : 0 <= career_value * (0.00001 * L0) * (1 + 0.818 - I0)
               <= 20 * 365 * (0.00001 * 0.7) * 2).
  { split.
    - apply Rmult_le_pos; [apply Rmult_le_pos|]; nra.
    - assert (A : 0 <= career_value * (0.00001 * L0) <= 20 * 365 * (0.00001 * 0.7))
        by nra.
      nra. }
  split; nra.
Qed.

Lemma quadrilinear_zeros gs x : quadrilinear gs zeros_v x = 0.
Proof.
  destruct gs as [[[g1 g2] g3] g4], x as [[[x1 x2] x3] x4].
  unfold quadrilinear, zeros_v, corners. simpl. ring.
Qed.

(** Against the zero value array the objective is the cost of the step. *)
Lemma obj_func_zeros n (L : vec2) (st : state) r :
  obj_func (Model_init cost dynamics n) L st zeros_v = Ok r ->
  r = cost L st.
Proof.
  unfold obj_func, RegularGridInterpolator.
  change (f (Model_init cost dynamics n)) with dynamics.
  change (u (Model_init cost dynamics n)) with cost.
  destruct (dynamics L st) as [[[s0 i0] r0] d0].
  destruct (in_domain _ (concatenate s0 i0)); [|discriminate].
  unfold concatenate. cbn [bind]. rewrite quadrilinear_zeros.
  intros E; injection E as <-. unfold dt. ring.
Qed.

(** A property of 0 and of every optimised value is a property of every
    value the sweep leaves, if it was one of the values it started
    from. *)
Lemma T_loop_values (Q : R -> Prop) minimize v og bds :
  Q 0 ->
  forall cells,
    (forall c x m, In c cells -> classify og c = Interior ->
       minimize (cell_objective v og c) (0, 1) bds = Ok (x, m) -> Q m) ->
    forall st st',
      T_loop minimize v og bds cells st = Ok st' ->
      (forall c, Q (v_new st c)) ->
      forall c, Q (v_new st' c).
Proof.
  intros H0. induction cells as [|c0 cells IH]; intros Hopt st st' H HQ.
  - injection H as <-. exact HQ.
  - simpl in H.
    destruct (T_body minimize v og bds st c0) as [st1|e] eqn:E1;
      simpl in H; [|discriminate].
    apply (IH (fun c x m Hc => Hopt c x m (or_intror Hc)) st1 st' H).
    intros c.
    apply T_body_inv in E1. destruct E1 as (F1 & _ & _ & Hst).
    destruct (cell_eq_dec c c0) as [->|Hne].
    + unfold stored in Hst. destruct (classify og c0) eqn:Ec.
      * destruct Hst as [-> _]. apply HQ.
      * destruct Hst as [-> _]. exact H0.
      * eapply (Hopt c0); [left; reflexivity|exact Ec|exact Hst].
    + destruct (F1 c Hne) as [-> _]. apply HQ.
Qed.

(** What a sweep leaves at an optimised cell. *)
Lemma sweep_interior minimize el v og st c :
  T_sweep minimize el v og = Ok st ->
  In c (traversal og) ->
  classify og c = Interior ->
  minimize (cell_objective v og c) (0, 1) T_bds
  = Ok (v_greedy st c, v_new st c).
Proof.
  intros Hs Hin Hc.
  pose proof (traversal_NoDup og) as ND.
  destruct (in_split _ _ Hin) as (pre & post & Htr).
  unfold T_sweep in Hs. rewrite Htr in Hs, ND.
  destruct (T_loop_visit _ _ _ _ _ _ _ _ _ ND Hs)
    as (st1 & st2 & H1 & H2 & _ & Hv & Hg & _).
  apply T_body_inv in H2. destruct H2 as (_ & _ & _ & Hst).
  unfold stored in Hst. rewrite Hc in Hst. rewrite Hv, Hg. exact Hst.
Qed.


(** The value that the optimizer stopping at its projected start leaves
    at an optimised cell, against the zero value array: the cost of the
    control [(1e-4, 1)]. *)
Lemma first_iterate_value n c x m :
  let og := Model_init cost dynamics n in
  In c (traversal og) ->
  classify og c = Interior ->
  first_iterate (cell_objective zeros_v og c) (0, 1) T_bds = Ok (x, m) ->
  m = cost (1e-4, 1) (bellman_at og c)
  /\ 0.48 * 1e-4 <= m <= 100.
Proof.
  intros og Hin Hc. subst og. unfold first_iterate, cell_objective.
  rewrite clip_T_bds_start.
  destruct (obj_func (Model_init cost dynamics n) (1e-4, 1)
              (bellman_at (Model_init cost dynamics n) c) zeros_v)
    as [r|e] eqn:E; simpl; [|discriminate].
  intros X; injection X as _ <-.
  apply obj_func_zeros in E. subst r. split; [reflexivity|].
  pose proof (bellman_at_range cost dynamics n c Hin) as [HS HI].
  cbv zeta in HS, HI.
  apply classify_interior in Hc. destruct Hc as [Hb _].
  assert (HL : in_box T_bds (1e-4, 1))
    by (unfold in_box, T_bds, L_max; cbv [fst snd]; lra).
  pose proof (cost_range (1e-4, 1)
                (bellman_at (Model_init cost dynamics n) c) HL) as Hr.
  destruct (bellman_at (Model_init cost dynamics n) c) as [[S0 S1] [I0 I1]].
  cbv [fst snd] in *. unfold vsum in Hr. cbv [fst snd] in Hr.
  apply Hr; try lra. exact Hb.
Qed.

Lemma fold_left_Rmax_ge xs : forall x,
  x <= fold_left Rmax xs x
  /\ forall y, In y xs -> y <= fold_left Rmax xs x.
Proof.
  induction xs as [|a xs IH]; intros x; simpl.
  - split; [lra|intros y []].
  - destruct (IH (Rmax x a)) as [H1 H2]. split.
    + eapply Rle_trans; [apply Rmax_l|exact H1].
    + intros y [<-|Hy]; [|auto].
      eapply Rle_trans; [apply Rmax_r|exact H1].
Qed.

Lemma fold_left_Rmax_le xs B : forall x,
  x <= B -> (forall y, In y xs -> y <= B) -> fold_left Rmax xs x <= B.
Proof.
  induction xs as [|a xs IH]; intros x Hx Hxs; simpl; [exact Hx|].
  apply IH.
  - apply Rmax_lub; [exact Hx|apply Hxs; left; reflexivity].
  - intros y Hy. apply Hxs. right; exact Hy.
Qed.

(** The sup-norm dominates every entrywise change and is dominated by
    every common bound of them. *)
Lemma sup_norm_bounds og v v' e :
  sup_norm og v v' = Ok e ->
  (forall c, In c (traversal og) -> Rabs (v c - v' c) <= e)
  /\ (forall B, (forall c, In c (traversal og) -> Rabs (v c - v' c) <= B) ->
        e <= B).
Proof.
  unfold sup_norm. destruct (traversal og) as [|c0 cs]; [discriminate|].
  simpl. intros E; injection E as <-.
  set (g := fun c : cell => Rabs (v c - v' c)).
  destruct (fold_left_Rmax_ge (map g cs) (g c0)) as [H1 H2].
  split.
  - intros c [<-|Hc]; [exact H1|]. apply H2.
    change (Rabs (v c - v' c)) with (g c). apply in_map. exact Hc.
  - intros B HB. apply fold_left_Rmax_le.
    + apply HB. left; reflexivity.
    + intros y Hy. apply in_map_iff in Hy. destruct Hy as (c & <- & Hc).
      apply HB. right; exact Hc.
Qed.

Lemma og15_7000_interior : classify og15 (7, 0, 0, 0)%nat = Interior.
Proof. apply classify_interior. split; grid_arith. Qed.

Lemma og15_7000_visited : In (7, 0, 0, 0)%nat (traversal og15).
Proof.
  apply traversal_In. unfold og15. cbn [gridS gridI Model_init].
  rewrite !linspace_length. lia.
Qed.

(** C4 as the specification states it fails on its flag.  On the notebook's
    grid, from the zero value array and with a budget of one iteration,
    the run under tolerance 100 stops because the change met the
    tolerance and the run under tolerance 1e-5 stops because the budget
    ran out, yet both print the same lines, "Failed to converge!"
    included, and return the same pair of arrays. *)
Lemma same_outcome_converged_or_exhausted :
  exists out r e,
    solve_model first_iterate (fun a => a) og15 zeros_v 1 100 true 5
    = (out, Ok r)
    /\ solve_model first_iterate (fun a => a) og15 zeros_v 1 1e-5 true 5
       = (out, Ok r)
    /\ sup_norm og15 zeros_v (snd r) = Ok e
    /\ e <= 100
    /\ e > 1e-5
    /\ In MsgFailed out.
Proof.
  assert (H15 : (2 <= 15)%nat) by lia.
  destruct (T_sweep_first_iterate (fun a => a) zeros_v 15 H15) as [st Hst].
  assert (HT : T first_iterate (fun a => a) zeros_v og15
               = Ok (v_greedy st, v_new st)) by (apply T_of_sweep; eauto).
  assert (Hne : traversal og15 <> []).
  { intros E. pose proof og15_origin_visited as X. rewrite E in X.
    destruct X. }
  destruct (sup_norm_total og15 Hne zeros_v (v_new st)) as [e He].
  destruct (sup_norm_bounds og15 zeros_v (v_new st) e He) as [Hlo Hhi].
  assert (Hall : forall c, 0 <= v_new st c <= 100).
  { apply (T_loop_values (fun r => 0 <= r <= 100) first_iterate zeros_v og15
             T_bds) with (cells := traversal og15)
                         (st := T_init (fun a => a) zeros_v).
    - lra.
    - intros c x m Hin Hc Hm.
      destruct (first_iterate_value 15 c x m Hin Hc Hm) as [_ Hr]. lra.
    - exact Hst.
    - intros c. simpl. unfold zeros_v. lra. }
  assert (H7 : 0.48 * 1e-4 <= v_new st (7, 0, 0, 0)%nat).
  { pose proof (sweep_interior first_iterate (fun a => a) zeros_v og15 st
                  (7, 0, 0, 0)%nat Hst og15_7000_visited og15_7000_interior)
      as Hm.
    destruct (first_iterate_value 15 _ _ _ og15_7000_visited
                og15_7000_interior Hm) as [_ Hr]. lra. }
  assert (Hps : 5%Z <> 0%Z) by discriminate.
  exists ([MsgError 0 e] ++ [MsgError 1 e; MsgFailed]), (v_greedy st, v_new st), e.
  split; [exact (solve_model_budget_one _ _ _ _ 100 true 5%Z _ e HT He Hps)|].
  split; [exact (solve_model_budget_one _ _ _ _ 1e-5 true 5%Z _ e HT He Hps)|].
  split; [exact He|].
  split; [|split].
  - apply Hhi. intros c _. unfold zeros_v.
    specialize (Hall c). rewrite Rabs_left1 by lra. lra.
  - specialize (Hlo _ og15_7000_visited). unfold zeros_v in Hlo.
    specialize (Hall (7, 0, 0, 0)%nat).
    rewrite Rabs_left1 in Hlo by lra. lra.
  - simpl. auto.
Qed.

(* ================================================================== *)
(** ** The axes of a constructed model *)


(** X1. With at least two grid points, [Model.__init__] builds two
    strictly ascending axes of the requested length, from 1e-4 to 1
    (susceptible) and from 1e-4 to 0.5 (infected). *)
Theorem Model_init_axes u0 f0 n :
  (2 <= n)%nat ->
  let og := Model_init u0 f0 n in
  (length (gridS og) = n /\ length (gridI og) = n)
  /\ (axis_lo (gridS og) = 1e-4 /\ axis_hi (gridS og) = 1)
  /\ (axis_lo (gridI og) = 1e-4 /\ axis_hi (gridI og) = 0.5)
  /\ (forall i j, (i < j < n)%nat ->
        nth i (gridS og) 0 < nth j (gridS og) 0
        /\ nth i (gridI og) 0 < nth j (gridI og) 0).
Proof.
  intros Hn. cbv zeta. cbn [gridS gridI Model_init].
  rewrite !linspace_length, !linspace_lo, !linspace_hi by lia.
  repeat split; try reflexivity; apply linspace_increasing; try lra; lia.
Qed.

Lemma Model_init_axes_witness :
  (2 <= 15)%nat
  /\ length (gridS og15) = 15%nat
  /\ axis_hi (gridI og15) = 0.5
  /\ nth 3 (gridS og15) 0 < nth 4 (gridS og15) 0.
Proof.
  assert (H15 : (2 <= 15)%nat) by lia.
  destruct (Model_init_axes cost dynamics 15 H15)
    as ((HS & _) & _ & (_ & HI) & Hinc).
  assert (H34 : (3 < 4 < 15)%nat) by lia.
  exact (conj H15 (conj HS (conj HI (proj1 (Hinc 3%nat 4%nat H34))))).
Defined.

(* ================================================================== *)
(** ** More on the sweep *)

(** The first cell of a constructed model is post-herd. *)
Lemma Model_init_origin_postherd u0 f0 n :
  (1 <= n)%nat -> classify (Model_init u0 f0 n) origin = PostHerd.
Proof.
  intros Hn. apply classify_postherd.
  unfold within_bound, sum_axis0, sum_all, vsum, vadd, vzip, P,
    herd_threshold, origin, bellman_at.
  cbn [gridS gridI Model_init fst snd].
  rewrite !linspace_nth by lia. simpl INR. split; [split|]; lra.
Qed.

Lemma Model_init_traversal_head u0 f0 n :
  (1 <= n)%nat ->
  exists rest, traversal (Model_init u0 f0 n) = origin :: rest.
Proof.
  intros Hn. destruct (traversal_head (Model_init u0 f0 n)) as [E|E];
    [|exact E].
  assert (Hin : In origin (traversal (Model_init u0 f0 n))).
  { apply traversal_In. cbn [gridS gridI Model_init].
    rewrite !linspace_length. lia. }
  rewrite E in Hin. destruct Hin.
Qed.

(** Two optimizers that return the same at the objective of a cell, when
    that cell is optimised, leave the same sweep state there. *)
Lemma T_body_same_optimizer minimize minimize' v og bds st c :
  (classify og c = Interior ->
     minimize (cell_objective v og c) (0, 1) bds
     = minimize' (cell_objective v og c) (0, 1) bds) ->
  T_body minimize v og bds st c = T_body minimize' v og bds st c.
Proof.
  intros H. destruct (classify og c) eqn:E.
  - now rewrite !(T_body_exterior _ _ _ _ _ _ E).
  - now rewrite !(T_body_postherd _ _ _ _ _ _ E).
  - now rewrite !(T_body_interior _ _ _ _ _ _ E), (H eq_refl).
Qed.

Lemma T_loop_same_optimizer minimize minimize' v og bds cells :
  (forall c, In c cells -> classify og c = Interior ->
     minimize (cell_objective v og c) (0, 1) bds
     = minimize' (cell_objective v og c) (0, 1) bds) ->
  forall st,
    T_loop minimize v og bds cells st = T_loop minimize' v og bds cells st.
Proof.
  induction cells as [|c cells IH]; intros H st; simpl; [reflexivity|].
  rewrite (T_body_same_optimizer minimize minimize' v og bds st c)
    by (apply H; left; reflexivity).
  destruct (T_body minimize' v og bds st c) as [st1|e]; simpl;
    [|reflexivity].
  apply IH. intros c' Hc'. apply H. right; exact Hc'.
Qed.

(** X2. The outcome of a sweep depends on the optimizer only through
    what it returns, or raises, at the objectives of the
    interior-admissible cells of the grid, started from [(0, 1)] with
    the bounds of [T]: two optimizers that agree there give the same
    arrays or the same exception, whatever they would do at a post-herd
    or an exterior cell. *)
Theorem T_optimizer_only_at_interior minimize minimize' el v og :
  (forall c, In c (traversal og) -> classify og c = Interior ->
     minimize (cell_objective v og c) (0, 1) T_bds
     = minimize' (cell_objective v og c) (0, 1) T_bds) ->
  T minimize el v og = T minimize' el v og.
Proof.
  intros H. unfold T, T_sweep.
  now rewrite (T_loop_same_optimizer minimize minimize' v og T_bds
                 (traversal og) H).
Qed.

(** On the 2-point grid: the optimizer that stops at its projected
    start, and the one that is handed the projected guess. *)
Lemma T_optimizer_only_at_interior_witness :
  T first_iterate (fun a => a) zeros_v og2
  = T (fun g x0 bds => first_iterate g (clip bds x0) bds) (fun a => a)
      zeros_v og2.
Proof.
  apply (T_optimizer_only_at_interior first_iterate
           (fun g x0 bds => first_iterate g (clip bds x0) bds)).
  intros c _ _. apply first_iterate_starts_from_projection.
Defined.

(** Two sweep states that agree on the cells visited so far, the tracked
    index being one of them. *)
Definition agree (seen : cell -> Prop) (s1 s2 : sweep) : Prop :=
  tracked s1 = tracked s2
  /\ seen (tracked s1)
  /\ forall c, seen c ->
       v_new s1 c = v_new s2 c /\ v_greedy s1 c = v_greedy s2 c.

(** The outcomes of two runs: both return, in related states, or both
    raise the same exception. *)
Definition same_outcome {A : Type} (rel : A -> A -> Prop)
    (r1 r2 : result A) : Prop :=
  match r1, r2 with
  | Ok a, Ok b => rel a b
  | Raise e1, Raise e2 => e1 = e2
  | _, _ => False
  end.

Lemma T_body_agree minimize v og bds seen s1 s2 c :
  agree seen s1 s2 ->
  same_outcome (agree (fun x => x = c \/ seen x))
    (T_body minimize v og bds s1 c) (T_body minimize v og bds s2 c).
Proof.
  intros (Ht & Hs & Hv).
  destruct (Hv _ Hs) as [Hvt Hgt].
  assert (Hstep : forall (a1 a2 : R) (p1 p2 : vec2) t,
            a1 = a2 -> p1 = p2 -> (t = c \/ seen t) ->
            agree (fun x => x = c \/ seen x)
              {| v_new := upd (v_new s1) c a1;
                 v_greedy := upd (v_greedy s1) c p1;
                 tracked := t; invoked := invoked s1 |}
              {| v_new := upd (v_new s2) c a2;
                 v_greedy := upd (v_greedy s2) c p2;
                 tracked := t; invoked := invoked s2 |}).
  { intros a1 a2 p1 p2 t -> -> Hseen. split; [reflexivity|].
    split; [exact Hseen|]. intros x Hx. simpl.
    destruct (cell_eq_dec c x) as [->|Hne].
    - now rewrite !upd_same.
    - rewrite !upd_other by exact Hne.
      destruct Hx as [->|Hx]; [contradiction|]. now apply Hv. }
  destruct (classify og c) eqn:Ec.
  - rewrite !(T_body_exterior _ _ _ _ _ _ Ec). simpl.
    rewrite <- Ht. apply Hstep; auto.
  - rewrite !(T_body_postherd _ _ _ _ _ _ Ec). simpl.
    destruct (Hstep 0 0 (bc 0) (bc 0) (tracked s1) eq_refl eq_refl
                (or_intror Hs)) as (A & B & C).
    split; [simpl; exact Ht|]. split; [exact B|exact C].
  - rewrite !(T_body_interior _ _ _ _ _ _ Ec).
    destruct (minimize (cell_objective v og c) (0, 1) bds) as [[x m]|e];
      simpl; [|reflexivity].
    destruct (Hstep m m x x c eq_refl eq_refl (or_introl eq_refl))
      as (A & B & C).
    split; [reflexivity|]. split; [exact B|exact C].
Qed.

Lemma T_loop_agree minimize v og bds cells : forall seen s1 s2,
  agree seen s1 s2 ->
  same_outcome (agree (fun x => In x cells \/ seen x))
    (T_loop minimize v og bds cells s1) (T_loop minimize v og bds cells s2).
Proof.
  induction cells as [|c cells IH]; intros seen s1 s2 Ha; simpl.
  - destruct Ha as (A & B & C). split; [exact A|]. split; [right; exact B|].
    intros x [[]|Hx]. now apply C.
  - pose proof (T_body_agree minimize v og bds seen s1 s2 c Ha) as Hb.
    destruct (T_body minimize v og bds s1 c) as [a|e1];
      destruct (T_body minimize v og bds s2 c) as [b|e2];
      simpl in Hb; try contradiction; simpl; [|exact Hb].
    specialize (IH _ a b Hb).
    destruct (T_loop minimize v og bds cells a) as [a'|e1];
      destruct (T_loop minimize v og bds cells b) as [b'|e2];
      simpl in IH; try contradiction; simpl; [|exact IH].
    destruct IH as (A & B & C). split; [exact A|]. split.
    + destruct B as [B|[B|B]]; [left; right; exact B|left; left; auto
                               |right; exact B].
    + intros x Hx. apply C.
      destruct Hx as [[<-|Hx]|Hx]; [right; left; reflexivity|left; exact Hx
                                   |right; right; exact Hx].
Qed.

(** X4. On a constructed model the contents of the uninitialised buffer
    [np.empty_like(v)] never reach the result: two sweeps that differ
    only in those contents either raise the same exception or return
    arrays equal at every grid cell. *)
Theorem T_ignores_uninitialised minimize el el' v u0 f0 n :
  let og := Model_init u0 f0 n in
  same_outcome
    (fun r r' => forall c, In c (traversal og) ->
                 snd r c = snd r' c /\ fst r c = fst r' c)
    (T minimize el v og) (T minimize el' v og).
Proof.
  cbv zeta. unfold T, T_sweep.
  destruct n as [|n].
  - change (traversal (Model_init u0 f0 0)) with (@nil cell). simpl.
    intros c [].
  - destruct (Model_init_traversal_head u0 f0 (S n)) as [rest Hrest]; [lia|].
    rewrite Hrest. simpl T_loop.
    assert (Hc : classify (Model_init u0 f0 (S n)) origin = PostHerd)
      by (apply Model_init_origin_postherd; lia).
    rewrite !(T_body_postherd _ _ _ _ _ _ Hc). simpl bind.
    match goal with
    | |- same_outcome _ (bind (T_loop _ _ _ _ _ ?a) _)
                        (bind (T_loop _ _ _ _ _ ?b) _) =>
        assert (Ha : agree (fun x => x = origin) a b)
    end.
    { split; [reflexivity|]. split; [reflexivity|].
      intros x ->. simpl. now rewrite !upd_same. }
    pose proof (T_loop_agree minimize v (Model_init u0 f0 (S n)) T_bds rest
                  _ _ _ Ha) as H.
    match type of H with
    | same_outcome _ ?r1 ?r2 => destruct r1 as [a|e1]; destruct r2 as [b|e2]
    end; simpl in H; try contradiction; simpl; [|exact H].
    destruct H as (_ & _ & C). intros c [<-|Hc'].
    + apply C. right; reflexivity.
    + apply C. left; exact Hc'.
Qed.

(** Where a value and a policy held by a cell come from. *)
Definition provenance
    (minimize : (vec2 -> result R) -> vec2 -> bounds -> result (vec2 * R))
    (v : varray) (og : Model) (bds : bounds) (x : vec2) (m : R) : Prop :=
  (m = 0 /\ x = bc 0)
  \/ exists c', In c' (traversal og)
                /\ classify og c' = Interior
                /\ minimize (cell_objective v og c') (0, 1) bds = Ok (x, m).

Lemma T_loop_provenance minimize v og bds cells : forall (seen : cell -> Prop) st st',
  (forall c, In c cells -> In c (traversal og)) ->
  seen (tracked st) ->
  (forall c, seen c -> provenance minimize v og bds (v_greedy st c) (v_new st c)) ->
  T_loop minimize v og bds cells st = Ok st' ->
  forall c, In c cells \/ seen c ->
    provenance minimize v og bds (v_greedy st' c) (v_new st' c).
Proof.
  induction cells as [|c0 cells IH]; intros seen st st' Hsub Ht Hs H.
  - injection H as <-. intros c [[]|Hc]. now apply Hs.
  - simpl in H.
    destruct (T_body minimize v og bds st c0) as [st1|e] eqn:E1;
      simpl in H; [|discriminate].
    apply T_body_inv in E1. destruct E1 as (F1 & T1 & _ & Hst).
    assert (Hs1 : forall c, c = c0 \/ seen c ->
              provenance minimize v og bds (v_greedy st1 c) (v_new st1 c)).
    { intros c Hc. destruct (cell_eq_dec c c0) as [->|Hne].
      - unfold stored in Hst. destruct (classify og c0) eqn:Ec.
        + destruct Hst as [-> ->]. now apply Hs.
        + destruct Hst as [-> ->]. left. auto.
        + right. exists c0. split; [apply Hsub; left; reflexivity|]. auto.
      - destruct (F1 c Hne) as [-> ->]. apply Hs.
        destruct Hc as [->|Hc]; [contradiction|exact Hc]. }
    assert (Ht1 : tracked st1 = c0 \/ seen (tracked st1)).
    { rewrite T1. destruct (is_interior og c0); auto. }
    intros c Hc.
    apply (IH (fun x => x = c0 \/ seen x) st1 st'); auto.
    + intros x Hx. apply Hsub. right; exact Hx.
    + destruct Hc as [[<-|Hc]|Hc]; auto.
Qed.

(** X5. On a constructed model every grid cell ends a sweep holding
    either value 0 with policy [0, 0], or exactly the minimiser and the
    minimum that the optimizer returned at some interior-admissible cell
    of the grid: the sweep makes up no value of its own. *)
Theorem T_values_provenance minimize el v u0 f0 n vg vn c :
  let og := Model_init u0 f0 n in
  T minimize el v og = Ok (vg, vn) ->
  In c (traversal og) ->
  (vn c = 0 /\ vg c = bc 0)
  \/ exists c', In c' (traversal og)
                /\ classify og c' = Interior
                /\ minimize (cell_objective v og c') (0, 1) T_bds
                   = Ok (vg c, vn c).
Proof.
  cbv zeta. intros HT Hin.
  apply T_of_sweep in HT. destruct HT as (st & Hs & -> & ->).
  destruct n as [|n]; [destruct Hin|].
  destruct (Model_init_traversal_head u0 f0 (S n)) as [rest Hrest]; [lia|].
  assert (Hc : classify (Model_init u0 f0 (S n)) origin = PostHerd)
    by (apply Model_init_origin_postherd; lia).
  unfold T_sweep in Hs. rewrite Hrest in Hs, Hin. simpl in Hs.
  rewrite (T_body_postherd _ _ _ _ _ _ Hc) in Hs. simpl in Hs.
  refine (T_loop_provenance minimize v (Model_init u0 f0 (S n)) T_bds rest
            (fun x => x = origin) _ st _ _ _ Hs c _).
  - intros x Hx. rewrite Hrest. right; exact Hx.
  - reflexivity.
  - intros x ->. simpl. rewrite !upd_same. left. auto.
  - destruct Hin as [<-|Hin]; auto.
Qed.

Lemma T_values_provenance_witness :
  exists vg vn,
    T first_iterate (fun a => a) zeros_v og2 = Ok (vg, vn)
    /\ In (1, 1, 1, 1)%nat (traversal og2)
    /\ ((vn (1, 1, 1, 1)%nat = 0 /\ vg (1, 1, 1, 1)%nat = bc 0)
        \/ exists c', In c' (traversal og2)
                      /\ classify og2 c' = Interior
                      /\ first_iterate (cell_objective zeros_v og2 c')
                           (0, 1) T_bds
                         = Ok (vg (1, 1, 1, 1)%nat, vn (1, 1, 1, 1)%nat)).
Proof.
  destruct (T_first_iterate_total (fun a => a) zeros_v 2 (le_n 2))
    as [[vg vn] HT].
  exists vg, vn.
  assert (Hin : In (1, 1, 1, 1)%nat (traversal og2))
    by (rewrite og2_traversal; do 15 right; left; reflexivity).
  exact (conj HT (conj Hin
           (T_values_provenance first_iterate (fun a => a) zeros_v
              cost dynamics 2 vg vn (1, 1, 1, 1)%nat HT Hin))).
Defined.

(* ================================================================== *)
(** ** The flows of the transition model *)

(** The four increments [dI], [dS], [dR], [dD] that [dynamics] computes
    before it normalises and clamps. *)
Definition increments (L_d : vec2) (st : state)
  : vec2 * vec2 * vec2 * vec2 :=
  let R_d := (P - sum_axis0 st)%vec in
  let S_d := fst st in
  let I_d := snd st in

  let beta := betaBSIR I_d in
  let deathRate := phi I_d in
  let indirDeath := indir L_d in
  let recoveryRate := (bc gamma * bc 1 - deathRate)%vec in

  let sum_I := mdot beta ((bc 1 - bc theta * L_d) * I_d)%vec in

  let dI := (sum_I * (bc 1 - bc theta * L_d) * S_d - bc gamma * I_d)%vec in
  let dS := (- dI - bc gamma * I_d - indirDeath * S_d)%vec in
  let dR := (recoveryRate * I_d - indirDeath * R_d)%vec in
  let dD := (deathRate * I_d + indirDeath * (S_d + R_d))%vec in
  (dI, dS, dR, dD).

(** [dynamics] is the normalisation and clamping of these increments. *)
Lemma dynamics_increments (L_d : vec2) (st : state) :
  dynamics L_d st =
  let '(dI, dS, dR, dD) := increments L_d st in
  let R_d := (P - sum_axis0 st)%vec in
  let D_new := vmax (vmin (bc dt * dD)%vec (bc 1.0)) (bc 0) in
  (xvmaximum (xvminimum
     (xvdiv (fst st + bc dt * dS)%vec (bc 1 - D_new)%vec) 1.0) (1e-4 + 1e-5),
   xvmaximum (xvminimum
     (xvdiv (snd st + bc dt * dI)%vec (bc 1 - D_new)%vec) 0.5) (1e-4 + 1e-5),
   xvmaximum (xvminimum
     (xvdiv (R_d + bc dt * dR)%vec (bc 1 - D_new)%vec) 1.0) (1e-4 + 1e-5),
   D_new).
Proof. reflexivity. Qed.

Lemma beta_scale_pos (I_b : vec2) : 0 < beta_0 * exp (- alpha_I * vsum I_b).
Proof.
  apply Rmult_lt_0_compat; [unfold beta_0; lra|apply exp_pos].
Qed.

(** X7. A stricter lockdown never raises the new infections of a step:
    for non-negative susceptible and infected shares and lockdown levels
    [0 <= L <= L' <= 1] componentwise, the infection increment [dI] under
    [L'] is at most the one under [L] in both groups. *)
Theorem lockdown_reduces_infections (L L' : vec2) (st : state) :
  0 <= fst L <= fst L' -> fst L' <= 1 ->
  0 <= snd L <= snd L' -> snd L' <= 1 ->
  0 <= fst (fst st) -> 0 <= snd (fst st) ->
  0 <= fst (snd st) -> 0 <= snd (snd st) ->
  fst (fst (fst (fst (increments L' st))))
    <= fst (fst (fst (fst (increments L st))))
  /\ snd (fst (fst (fst (increments L' st))))
       <= snd (fst (fst (fst (increments L st)))).
Proof.
  destruct L as [L0 L1], L' as [M0 M1], st as [[S0 S1] [I0 I1]].
  cbv [fst snd]. intros HL0 HM0 HL1 HM1 HS0 HS1 HI0 HI1.
  pose proof (beta_scale_pos (I0, I1)) as Hb.
  unfold vsum in Hb. cbv [fst snd] in Hb.
  unfold increments, betaBSIR, mscal, mdot, vsub, vmul, vzip, vsum, bc.
  cbv [fst snd].
  set (b := beta_0 * exp (- alpha_I * (I0 + I1))) in *.
  unfold theta, rho_0, gamma.
  set (a0 := 1 - 0.75 * L0). set (a1 := 1 - 0.75 * L1).
  set (c0 := 1 - 0.75 * M0). set (c1 := 1 - 0.75 * M1).
  assert (Ha0 : 0 <= c0 <= a0) by (unfold a0, c0; lra).
  assert (Ha1 : 0 <= c1 <= a1) by (unfold a1, c1; lra).
  assert (Hp0 : 0 <= c0 * I0 <= a0 * I0) by nra.
  assert (Hp1 : 0 <= c1 * I1 <= a1 * I1) by nra.
  set (p0 := c0 * I0) in *. set (q0 := a0 * I0) in *.
  set (p1 := c1 * I1) in *. set (q1 := a1 * I1) in *.
  assert (Hx0 : 0 <= b * 1 * p0 <= b * 1 * q0) by nra.
  assert (Hx1 : 0 <= b * 0.75 * p1 <= b * 0.75 * q1) by nra.
  assert (Hy0 : 0 <= b * 0.75 * p0 <= b * 0.75 * q0) by nra.
  assert (Hy1 : 0 <= b * 1 * p1 <= b * 1 * q1) by nra.
  split.
  - set (x := b * 1 * p0 + b * 0.75 * p1) in *.
    set (y := b * 1 * q0 + b * 0.75 * q1) in *.
    assert (Hxy : 0 <= x <= y) by (unfold x, y; lra).
    assert (A : 0 <= x * c0 <= y * a0) by nra.
    assert (B : x * c0 * S0 <= y * a0 * S0) by nra.
    lra.
  - set (x := b * 0.75 * p0 + b * 1 * p1) in *.
    set (y := b * 0.75 * q0 + b * 1 * q1) in *.
    assert (Hxy : 0 <= x <= y) by (unfold x, y; lra).
    assert (A : 0 <= x * c1 <= y * a1) by nra.
    assert (B : x * c1 * S1 <= y * a1 * S1) by nra.
    lra.
Qed.

Lemma lockdown_reduces_infections_witness :
  fst (fst (fst (fst (increments (0.7, 1) ((0.5, 0.1), (0.01, 0.01))))))
  <= fst (fst (fst (fst (increments (0.1, 0.2) ((0.5, 0.1), (0.01, 0.01)))))).
Proof.
  refine (proj1 (lockdown_reduces_infections (0.1, 0.2) (0.7, 1)
                   ((0.5, 0.1), (0.01, 0.01)) _ _ _ _ _ _ _ _));
    cbv [fst snd]; lra.
Defined.

(** X8. Zero infection is not absorbing: from any state with no
    infected at all and any control of the box, [dynamics] returns the
    infected shares [1e-4 + 1e-5] in both groups, the floor of its
    clamp. *)
Theorem dynamics_reseeds_infection (L : vec2) (S_d : vec2) :
  in_box T_bds L ->
  snd (fst (fst (dynamics L (S_d, (0, 0)))))
  = (Fin (1e-4 + 1e-5), Fin (1e-4 + 1e-5)).
Proof.
  destruct L as [L0 L1], S_d as [S0 S1].
  unfold in_box, T_bds, L_max. cbv [fst snd].
  intros [[HL0 HL0'] [HL1 HL1']].
  rewrite dynamics_increments.
  unfold increments, phi, indir, betaBSIR, mscal, mdot, sum_axis0, vneg, vmap,
    vadd, vsub, vmul, vmin, vmax, vzip, vsum, bc, P, xvmaximum, xvminimum,
    xvdiv. cbv [fst snd].
  assert (HD0 : Rmax (Rmin (dt * ((0.000634 * gamma + 0.00845 * gamma * (0 + 0)) * 0
                 + alpha_L * L0 * (S0 + (0.818 - (S0 + 0))))) 1.0) 0 < 1).
  { unfold dt, gamma, alpha_L. apply Rmax_lub_lt; [|lra].
    eapply Rle_lt_trans; [apply Rmin_l|]. nra. }
  assert (HD1 : Rmax (Rmin (dt * ((0.00845 * gamma + 0.1127 * gamma * (0 + 0)) * 0
                 + alpha_L * L1 * (S1 + (0.182 - (S1 + 0))))) 1.0) 0 < 1).
  { unfold dt, gamma, alpha_L. apply Rmax_lub_lt; [|lra].
    eapply Rle_lt_trans; [apply Rmin_l|]. nra. }
  assert (Hq : forall num D, num = 0 -> D < 1 ->
            np_maximum (np_minimum (np_div num (1 - D)) 0.5) (1e-4 + 1e-5)
            = Fin (1e-4 + 1e-5)).
  { intros num D -> HD. unfold np_div.
    destruct (Reqb (1 - D) 0) eqn:E; rbool; [lra|].
    simpl. f_equal. unfold Rdiv. rewrite Rmult_0_l.
    rewrite Rmin_left by lra. apply Rmax_right. lra. }
  f_equal; apply Hq; try assumption; unfold dt, gamma; ring.
Qed.

Lemma dynamics_reseeds_infection_witness :
  in_box T_bds (0.5, 0.5)
  /\ snd (fst (fst (dynamics (0.5, 0.5) ((0.5, 0.1), (0, 0)))))
     = (Fin (1e-4 + 1e-5), Fin (1e-4 + 1e-5)).
Proof.
  assert (HL : in_box T_bds (0.5, 0.5))
    by (unfold in_box, T_bds, L_max; cbv [fst snd]; repeat split; lra).
  exact (conj HL (dynamics_reseeds_infection (0.5, 0.5) (0.5, 0.1) HL)).
Defined.

(* ================================================================== *)
(** ** More on the cost and the rates *)

Lemma cost_depends_on_eq (L L' : vec2) (st st' : state) :
  fst L = fst L' ->
  snd st = snd st' ->
  cost L st = cost L' st'.
Proof.
  intros HL HI.
  destruct (Req_dec_T (vsum (snd st)) 0) as [Hz|Hnz].
  - rewrite (cost_zero_mass L st Hz).
    rewrite HI in Hz. now rewrite (cost_zero_mass L' st' Hz).
  - rewrite (cost_closed_form L st Hnz).
    rewrite HI in Hnz. rewrite (cost_closed_form L' st' Hnz).
    now rewrite HL, HI.
Qed.

(** X9. The lockdown of the old enters neither the cost nor the output
    loss: the old earn nothing ([w = [1, 0]]) and have no career left,
    so each of their terms is a product with 0. *)
Theorem cost_ignores_old_lockdown (L_y L_o L_o' : R) (st : state) :
  cost (L_y, L_o) st = cost (L_y, L_o') st
  /\ output (L_y, L_o) st = output (L_y, L_o') st.
Proof.
  split; [apply cost_depends_on_eq; reflexivity|].
  unfold output. destruct (Reqb (vsum (snd st)) 0); [reflexivity|].
  destruct st as [[S0 S1] [I0 I1]].
  unfold w, vadd, vsub, vmul, vzip, vsum, bc. cbv [fst snd]. ring.
Qed.

Lemma cost_le_in_lockdown (L L' : vec2) (st : state) :
  fst L <= fst L' ->
  fst (snd st) <= 1 ->
  cost L st <= cost L' st.
Proof.
  intros HL HI.
  destruct (Req_dec_T (vsum (snd st)) 0) as [Hz|Hnz].
  - rewrite !(cost_zero_mass _ st Hz). lra.
  - rewrite !(cost_closed_form _ st Hnz).
    pose proof career_value_pos as HK.
    destruct L as [L0 L1], L' as [M0 M1], st as [[S0 S1] [I0 I1]].
    unfold vsum, wfh, gamma, alpha_L, alpha_E, F, P. cbv [fst snd] in *.
    assert (A : career_value * (0.00001 * L0) * (1 + 0.818 - I0)
                <= career_value * (0.00001 * M0) * (1 + 0.818 - I0)).
    { assert (0 <= career_value * (1 + 0.818 - I0)) by nra. nra. }
    nra.
Qed.



(** X12. For a total infection mass between 0 and 1 the death rates are
    positive, the rate of the old is above the rate of the young, and
    both stay below [gamma], so that the recovery rate
    [gamma - deathRate] of [dynamics] is positive. *)
Theorem phi_range (I_p : vec2) :
  0 <= vsum I_p <= 1 ->
  0 < fst (phi I_p) < snd (phi I_p) /\ snd (phi I_p) < gamma.
Proof.
  destruct I_p as [I0 I1]. unfold phi, vadd, vmul, vzip, vsum, bc, gamma.
  cbv [fst snd]. intros [H0 H1]. repeat split; nra.
Qed.

Lemma phi_range_witness :
  0 <= vsum (0.3, 0.2) <= 1
  /\ 0 < fst (phi (0.3, 0.2)) < snd (phi (0.3, 0.2))
  /\ snd (phi (0.3, 0.2)) < gamma.
Proof.
  assert (H : 0 <= vsum (0.3, 0.2) <= 1)
    by (unfold vsum; cbv [fst snd]; lra).
  exact (conj H (phi_range (0.3, 0.2) H)).
Defined.

(** X13. The transmission matrix is symmetric, with the cross-group
    rates [rho_0] times the within-group rate; for a non-negative
    infection mass the within-group rate lies in [(0, beta_0]], and it
    does not rise when the infection mass rises. *)
Theorem betaBSIR_shape (I_b I_b' : vec2) :
  0 <= vsum I_b <= vsum I_b' ->
  let b := fst (fst (betaBSIR I_b)) in
  betaBSIR I_b = ((b, rho_0 * b), (rho_0 * b, b))
  /\ 0 < b <= beta_0
  /\ fst (fst (betaBSIR I_b')) <= b.
Proof.
  intros [H0 Hle]. cbv zeta.
  unfold betaBSIR, mscal, vmul, vzip, bc. cbv [fst snd].
  pose proof (beta_scale_pos I_b) as Hb.
  set (b := beta_0 * exp (- alpha_I * vsum I_b)) in *.
  assert (He : exp (- alpha_I * vsum I_b) <= 1).
  { rewrite <- exp_0. unfold alpha_I.
    destruct (Req_dec_T (vsum I_b) 0) as [->|Hnz].
    - replace (- (1) * 0) with 0 by ring. lra.
    - left. apply exp_increasing. lra. }
  assert (He' : exp (- alpha_I * vsum I_b') <= exp (- alpha_I * vsum I_b)).
  { unfold alpha_I.
    destruct (Req_dec_T (vsum I_b) (vsum I_b')) as [->|Hne]; [lra|].
    left. apply exp_increasing. lra. }
  split; [|split].
  - f_equal; f_equal; ring.
  - unfold b, beta_0 in *. split; nra.
  - unfold b, beta_0. nra.
Qed.

Lemma betaBSIR_shape_witness :
  0 <= vsum (0.01, 0.01) <= vsum (0.2, 0.1)
  /\ fst (fst (betaBSIR (0.2, 0.1))) <= fst (fst (betaBSIR (0.01, 0.01))).
Proof.
  assert (H : 0 <= vsum (0.01, 0.01) <= vsum (0.2, 0.1))
    by (unfold vsum; cbv [fst snd]; lra).
  exact (conj H (proj2 (proj2 (betaBSIR_shape (0.01, 0.01) (0.2, 0.1) H)))).
Defined.

(* ================================================================== *)
(** ** More on the value-iteration loop *)

Lemma sup_norm_sym og v v' : sup_norm og v v' = sup_norm og v' v.
Proof.
  unfold sup_norm. f_equal. apply map_ext. intros c. apply Rabs_minus_sym.
Qed.

Lemma sup_norm_nonneg og v v' e : sup_norm og v v' = Ok e -> 0 <= e.
Proof.
  intros He. destruct (sup_norm_bounds og v v' e He) as [Hlo _].
  unfold sup_norm in He. destruct (traversal og) as [|c cs] eqn:E;
    [discriminate|].
  eapply Rle_trans; [apply Rabs_pos|]. apply (Hlo c). left; reflexivity.
Qed.

Lemma sup_norm_zero og v v' e :
  sup_norm og v v' = Ok e ->
  (e = 0 <-> forall c, In c (traversal og) -> v c = v' c).
Proof.
  intros He. pose proof (sup_norm_nonneg og v v' e He) as Hpos.
  destruct (sup_norm_bounds og v v' e He) as [Hlo Hhi]. split.
  - intros -> c Hc. specialize (Hlo c Hc).
    pose proof (Rabs_pos (v c - v' c)) as Hp.
    assert (Hz : Rabs (v c - v' c) = 0) by lra.
    destruct (Req_dec_T (v c - v' c) 0) as [E|E]; [lra|].
    apply Rabs_no_R0 in E. contradiction.
  - intros Heq. apply Rle_antisym; [|exact Hpos].
    apply Hhi. intros c Hc. rewrite (Heq c Hc).
    replace (v' c - v' c) with 0 by ring. rewrite Rabs_R0. lra.
Qed.

(** X14. On a non-empty grid the convergence measure is defined,
    non-negative and symmetric in its two arrays, and it is 0 exactly
    when the two arrays agree at every grid cell. *)
Theorem sup_norm_metric og v v' :
  traversal og <> [] ->
  exists e,
    sup_norm og v v' = Ok e
    /\ sup_norm og v' v = Ok e
    /\ 0 <= e
    /\ (e = 0 <-> forall c, In c (traversal og) -> v c = v' c).
Proof.
  intros Hne. destruct (sup_norm_total og Hne v v') as [e He].
  exists e. split; [exact He|]. split; [now rewrite sup_norm_sym|].
  split; [exact (sup_norm_nonneg og v v' e He)|].
  exact (sup_norm_zero og v v' e He).
Qed.

Lemma og2_nonempty : traversal og2 <> [].
Proof. rewrite og2_traversal. discriminate. Qed.

Lemma sup_norm_metric_witness :
  traversal og2 <> []
  /\ exists e, sup_norm og2 zeros_v (fun _ => 3) = Ok e /\ 0 <= e.
Proof.
  destruct (sup_norm_metric og2 zeros_v (fun _ => 3) og2_nonempty)
    as (e & He & _ & Hpos & _).
  exact (conj og2_nonempty (ex_intro _ e (conj He Hpos))).
Defined.

Lemma io_bind_raise {A B : Type} (out : list msg) (e : exn) (k : A -> io B) :
  io_bind (out, Raise e) k = (out, Raise e).
Proof. reflexivity. Qed.







(* ================================================================== *)
(** ** The control of the simulated trajectory *)

(** The herd-immunity marker of the trajectory loop: [herd] is -1 until
    the recovered mass first reaches the threshold, on day [t]. *)
Definition mark_herd (herd t : Z) (r_curr : vec2) : Z :=
  if (herd <? 0)%Z && Rgeb (vsum r_curr) herd_threshold then t else herd.

(** The marker after the days [t, t+1, ...] with recovered shares [rs]. *)
Fixpoint herd_after (herd t : Z) (rs : list vec2) : Z :=
  match rs with
  | [] => herd
  | r :: rs' => herd_after (mark_herd herd t r) (t + 1)%Z rs'
  end.

(** [interpControl]: the interpolator over the policy array, one blend
    per control component, with [bounds_error = True]. *)
Definition interpControl (og : Model) (v_greedy : parray) (q : query)
  : result vec2 :=
  let gs := (gridS og, gridS og, gridI og, gridI og) in
  l0 <- RegularGridInterpolator gs (fun c => fst (v_greedy c)) q ;;
  l1 <- RegularGridInterpolator gs (fun c => snd (v_greedy c)) q ;;
  Ok (l0, l1).

(** Lines printed by the [except ValueError] branch. *)
Inductive traj_msg : Type :=
| PrintShares (a : xvec2)
| PrintValueError (t : Z).

(** The [try] block of the trajectory loop followed by
    [l_curr = L_opt[t]]: [L_opt] starts as zeros, so a day whose
    assignment is skipped by the exception keeps the control [0, 0]. *)
Definition choose_control (og : Model) (v_greedy : parray) (herd t : Z)
    (s_curr i_curr : xvec2) : list traj_msg * result vec2 :=
  if (herd >? 0)%Z then ([], Ok (bc 0))
  else
    match interpControl og v_greedy (concatenate s_curr i_curr) with
    | Ok l => ([], Ok l)
    | Raise ValueError =>
        ([PrintShares s_curr; PrintShares i_curr; PrintValueError t],
         Ok (bc 0))
    | Raise e => ([], Raise e)
    end.

Lemma mark_herd_set herd t r :
  (0 <= herd)%Z -> mark_herd herd t r = herd.
Proof.
  intros H. unfold mark_herd.
  assert (E : (herd <? 0)%Z = false) by (apply Z.ltb_ge; exact H).
  now rewrite E.
Qed.

Lemma herd_after_set rs : forall herd t,
  (0 <= herd)%Z -> herd_after herd t rs = herd.
Proof.
  induction rs as [|r rs IH]; intros herd t H; simpl; [reflexivity|].
  rewrite mark_herd_set by exact H. now apply IH.
Qed.

(** X18. Run from day 0 with the marker at -1, the loop leaves the
    marker at -1 when the recovered mass stays below the threshold on
    every day, and otherwise at the first day on which it reached the
    threshold; the marker is never moved again. *)
Theorem herd_after_first_crossing (rs : list vec2) :
  let h := herd_after (-1) 0 rs in
  (h = (-1)%Z /\ forall r, In r rs -> vsum r < herd_threshold)
  \/ exists pre r post,
       rs = pre ++ r :: post
       /\ h = Z.of_nat (length pre)
       /\ vsum r >= herd_threshold
       /\ forall r', In r' pre -> vsum r' < herd_threshold.
Proof.
  cbv zeta.
  assert (G : forall rs t, (0 <= t)%Z ->
            (herd_after (-1) t rs = (-1)%Z
             /\ forall r, In r rs -> vsum r < herd_threshold)
            \/ exists pre r post,
                 rs = pre ++ r :: post
                 /\ herd_after (-1) t rs = (t + Z.of_nat (length pre))%Z
                 /\ vsum r >= herd_threshold
                 /\ forall r', In r' pre -> vsum r' < herd_threshold).
  { clear rs. induction rs as [|r rs IH]; intros t Ht.
    - left. split; [reflexivity|intros r []].
    - simpl. unfold mark_herd. cbn [Z.ltb Z.compare andb].
      destruct (Rgeb (vsum r) herd_threshold) eqn:E; rbool.
      + right. exists [], r, rs. simpl.
        rewrite herd_after_set by lia.
        repeat split; auto; try lia; intros r' [].
      + destruct (IH (t + 1)%Z ltac:(lia))
          as [[Hh Hall]|(pre & r1 & post & -> & Hh & Hr & Hpre)].
        * left. split; [exact Hh|]. intros r' [<-|Hin]; auto.
        * right. exists (r :: pre), r1, post. simpl length.
          repeat split; auto; try lia;
            intros r' [<-|Hin]; auto. }
  destruct (G rs 0%Z ltac:(lia)) as [H|(pre & r & post & E & Hh & Hr & Hpre)].
  - left. exact H.
  - right. exists pre, r, post. rewrite Hh. repeat split; auto.
Qed.

(** X20. When the recovered mass has already reached the threshold on
    day 0, the marker is set to 0 and stays 0, and since the loop tests
    [herd > 0], no later day has its lockdown switched off by the
    marker: every day still takes its control from the interpolator. *)
Theorem herd_on_day_zero_never_acts og v_greedy (r0 : vec2) (rs : list vec2)
    (t : Z) (s_curr i_curr : xvec2) :
  vsum r0 >= herd_threshold ->
  let h := herd_after (-1) 0 (r0 :: rs) in
  h = 0%Z
  /\ choose_control og v_greedy h t s_curr i_curr
     = match interpControl og v_greedy (concatenate s_curr i_curr) with
       | Ok l => ([], Ok l)
       | Raise _ =>
           ([PrintShares s_curr; PrintShares i_curr; PrintValueError t],
            Ok (bc 0))
       end.
Proof.
  intros Hr. cbv zeta. simpl herd_after. unfold mark_herd.
  apply Rgeb_true in Hr. rewrite Hr. cbn [Z.ltb Z.compare andb].
  rewrite herd_after_set by lia. split; [reflexivity|].
  unfold choose_control. cbn [Z.gtb Z.compare].
  unfold interpControl, RegularGridInterpolator.
  destruct (in_domain _ (concatenate s_curr i_curr)); reflexivity.
Qed.

Lemma herd_on_day_zero_never_acts_witness :
  vsum (0.5, 0.15) >= herd_threshold
  /\ herd_after (-1) 0 [(0.5, 0.15); (0.55, 0.16)] = 0%Z.
Proof.
  assert (H : vsum (0.5, 0.15) >= herd_threshold)
    by (unfold vsum, herd_threshold; cbv [fst snd]; lra).
  exact (conj H
           (proj1 (herd_on_day_zero_never_acts og15 zeros_p (0.5, 0.15)
                     [(0.55, 0.16)] 1 (Fin 0.3, Fin 0.03) (Fin 0.01, Fin 0.01)
                     H))).
Defined.

(* ================================================================== *)
(** ** The summary of the lockdown *)

(** [L[L > 1e-2]]: the days with a lockdown above 1%. *)
Definition lockdown_days (l : list R) : list R :=
  filter (fun x => Rgtb x 1e-2) l.

(** [np.sum(days) / len(days)] *)
Definition avg_lockdown (l : list R) : xreal :=
  let days := lockdown_days l in
  np_div (Rsum days) (INR (length days)).

Lemma Rsum_above (l : list R) (b : R) :
  (forall x, In x l -> b < x) -> l <> [] -> b * INR (length l) < Rsum l.
Proof.
  intros H Hne. induction l as [|a l IH]; [contradiction|].
  change (Rsum (a :: l)) with (a + Rsum l).
  change (length (a :: l)) with (S (length l)). rewrite S_INR.
  assert (Ha : b < a) by (apply H; left; reflexivity).
  destruct l as [|a' l'].
  - simpl. lra.
  - assert (Hl : b * INR (length (a' :: l')) < Rsum (a' :: l')).
    { apply IH; [|discriminate]. intros x Hx. apply H. right; exact Hx. }
    lra.
Qed.

(** X21. The average lockdown over the days above 1% is NaN when no
    day exceeds 1% (the division is 0 / 0), and otherwise a finite
    number above 1%. *)
Theorem avg_lockdown_cases (l : list R) :
  ((forall x, In x l -> x <= 1e-2) -> avg_lockdown l = NaN)
  /\ ((exists x, In x l /\ x > 1e-2) ->
      exists a, avg_lockdown l = Fin a /\ a > 1e-2).
Proof.
  unfold avg_lockdown, lockdown_days. split.
  - intros H.
    assert (E : filter (fun x => Rgtb x 1e-2) l = []).
    { induction l as [|a l IH]; [reflexivity|]. simpl.
      assert (Ha : Rgtb a 1e-2 = false)
        by (apply Rgtb_false, H; left; reflexivity).
      rewrite Ha. apply IH. intros x Hx. apply H. right; exact Hx. }
    rewrite E. simpl. apply np_div_zero_zero; reflexivity.
  - intros (x & Hx & Hgt).
    set (days := filter (fun x => Rgtb x 1e-2) l).
    assert (Hin : In x days)
      by (apply filter_In; split; [exact Hx|now apply Rgtb_true]).
    assert (Hne : days <> []) by (intros E; rewrite E in Hin; destruct Hin).
    assert (Hall : forall y, In y days -> 1e-2 < y).
    { intros y Hy. apply filter_In in Hy. destruct Hy as [_ Hy].
      apply Rgtb_true in Hy. lra. }
    assert (Hlen : 0 < INR (length days)).
    { apply lt_0_INR. destruct days; [contradiction|simpl; lia]. }
    pose proof (Rsum_above days 1e-2 Hall Hne) as Hsum.
    unfold np_div.
    destruct (Reqb (INR (length days)) 0) eqn:E; rbool; [lra|].
    eexists. split; [reflexivity|].
    apply Rlt_gt. apply Rmult_lt_reg_r with (INR (length days)); [exact Hlen|].
    replace (Rsum days / INR (length days) * INR (length days))
      with (Rsum days) by (field; lra).
    exact Hsum.
Qed.

(* ================================================================== *)
(** ** The first sweep, and the range of the transition *)

(** X22. In a sweep from the zero value array over a constructed model
    with at least two points per axis, the objective at every visited
    cell and every control of the box is defined and equals the
    instantaneous cost, and over the box that cost is least at the lower
    bound [1e-4] of the young's lockdown, whatever the lockdown of the
    old. *)
Theorem first_sweep_objective n c (x : vec2) :
  (2 <= n)%nat ->
  let og := Model_init cost dynamics n in
  In c (traversal og) ->
  in_box T_bds x ->
  obj_func og x (bellman_at og c) zeros_v = Ok (cost x (bellman_at og c))
  /\ cost (1e-4, snd x) (bellman_at og c) <= cost x (bellman_at og c)
  /\ cost (1e-4, snd x) (bellman_at og c) = cost (1e-4, 1) (bellman_at og c).
Proof.
  intros Hn og Hc Hx. subst og.
  destruct (sweep_objective_defined n zeros_v c x Hn Hc Hx) as [r Hr].
  pose proof (obj_func_zeros n x _ r Hr) as Er. subst r.
  split; [exact Hr|].
  pose proof (bellman_at_range cost dynamics n c Hc) as [_ HI].
  cbv zeta in HI.
  split.
  - apply cost_le_in_lockdown.
    + destruct Hx as [[Hx0 _] _]. unfold T_bds in Hx0. cbv [fst snd] in *.
      exact Hx0.
    + destruct (bellman_at (Model_init cost dynamics n) c)
        as [[S0 S1] [I0 I1]]. cbv [fst snd] in *. lra.
  - apply cost_depends_on_eq; reflexivity.
Qed.

Lemma first_sweep_objective_witness :
  (2 <= 2)%nat
  /\ In (0, 0, 1, 0)%nat (traversal og2)
  /\ in_box T_bds (0.5, 0.5)
  /\ obj_func og2 (0.5, 0.5) (bellman_at og2 (0, 0, 1, 0)%nat) zeros_v
     = Ok (cost (0.5, 0.5) (bellman_at og2 (0, 0, 1, 0)%nat)).
Proof.
  assert (Hn : (2 <= 2)%nat) by lia.
  assert (Hin : In (0, 0, 1, 0)%nat (traversal og2))
    by (right; right; left; reflexivity).
  assert (HL : in_box T_bds (0.5, 0.5))
    by (unfold in_box, T_bds, L_max; cbv [fst snd]; repeat split; lra).
  exact (conj Hn (conj Hin (conj HL
           (proj1 (first_sweep_objective 2 (0, 0, 1, 0)%nat (0.5, 0.5)
                     Hn Hin HL))))).
Defined.

(** A coordinate of a group with death fraction [D]: NaN, which needs
    [D = 1], or finite between the floor of the clamp and [hi]. *)
Definition NaN_or_clamped (hi D : R) (x : xreal) : Prop :=
  (x = NaN /\ D = 1) \/ clamped (1e-4 + 1e-5) hi x.

(** X23. Whatever the control and the state, [dynamics] returns a death
    fraction within [[0, 1]], and each susceptible, infected and
    recovered coordinate it returns is either NaN or a finite number
    within the range of its clamp, never an infinity; a coordinate can be
    NaN only in a group whose death fraction is 1. *)
Theorem dynamics_range (L : vec2) (st : state) :
  let '(S_new, I_new, R_new, D_new) := dynamics L st in
  (0 <= fst D_new <= 1 /\ 0 <= snd D_new <= 1)
  /\ (NaN_or_clamped 1 (fst D_new) (fst S_new)
      /\ NaN_or_clamped 1 (snd D_new) (snd S_new))
  /\ (NaN_or_clamped 0.5 (fst D_new) (fst I_new)
      /\ NaN_or_clamped 0.5 (snd D_new) (snd I_new))
  /\ (NaN_or_clamped 1 (fst D_new) (fst R_new)
      /\ NaN_or_clamped 1 (snd D_new) (snd R_new)).
Proof.
  destruct (dynamics_shape L st) as (numS & numI & numR & E). rewrite E.
  unfold NaN_or_clamped.
  pose proof (death_step_range L st) as [HD0 HD1].
  split; [exact (conj HD0 HD1)|].
  assert (G : forall num D hi, 1e-4 + 1e-5 <= hi ->
            (np_maximum (np_minimum (np_div num (1 - D)) hi) (1e-4 + 1e-5)
             = NaN /\ D = 1)
            \/ clamped (1e-4 + 1e-5) hi
                 (np_maximum (np_minimum (np_div num (1 - D)) hi)
                    (1e-4 + 1e-5))).
  { intros num D hi Hhi.
    destruct (np_clamp (np_div num (1 - D)) (1e-4 + 1e-5) hi Hhi)
      as [[En Ec]|[_ Hc]]; [left|right; exact Hc].
    split; [exact Ec|]. apply np_div_NaN in En. lra. }
  unfold xvmaximum, xvminimum, xvdiv, vsub, vzip, bc. cbv [fst snd].
  repeat split;
    match goal with
    | |- (np_maximum (np_minimum (np_div ?num (1 - ?D)) ?hi0) _ = NaN /\ _)
         \/ _ =>
        let H := fresh in
        destruct (G num D hi0 ltac:(lra)) as [H|H];
          [left; exact H
          |right; eapply clamped_weaken; [| |exact H]; lra]
    end.
Qed.
